(** * deep-copy: the command-line driver ([main.go]) and the generator it drives

    The driver of the deep-copy generator is embedded function by function:
    the four [flag.Value] implementations ([typesVal], [skipsVal],
    [outputVal], [buildTagsVal]), [main], [run] and [load].  The process
    state the driver touches (the files it opens, truncates and writes, the
    standard output stream) is an explicit [State]; every call that crosses
    the boundary of the driver is recorded in a trace, so that statements
    such as "the loader is never called" can be read off a run.

    The [deepcopy] package itself (the generator) is not part of the driver;
    its constructor, its type-graph walker and its orchestration are modelled
    from the specification, each definition saying so. *)

From Stdlib Require Import ZArith Ascii String List Lia.
From stdpp Require Import base strings list gmap sorting.

Open Scope string_scope.
Open Scope list_scope.
Open Scope stdpp_scope.

(* ===================================================================== *)
(** ** Go's [strings] package, as far as the driver uses it *)
(* ===================================================================== *)

(** [strings.Split(s, sep)] for a one-byte separator: the substrings between
    the occurrences of [sep]; a string without [sep] (the empty string too)
    gives a one-element slice. *)
Fixpoint strings_Split (s : string) (sep : ascii) : list string :=
  match s with
  | EmptyString => [EmptyString]
  | String c r =>
      if Ascii.eqb c sep then EmptyString :: strings_Split r sep
      else match strings_Split r sep with
           | h :: t => String c h :: t
           | [] => [String c EmptyString]
           end
  end.

(** [strings.Join(elems, sep)]. *)
Fixpoint strings_Join (elems : list string) (sep : string) : string :=
  match elems with
  | [] => ""
  | [e] => e
  | e :: rest => e +:+ sep +:+ strings_Join rest sep
  end.

Definition comma : ascii := ","%char.

(** The tail of a string from byte offset [n] on. *)
Fixpoint string_drop (n : nat) (s : string) : string :=
  match n, s with
  | O, _ => s
  | S _, EmptyString => EmptyString
  | S n', String _ r => string_drop n' r
  end.

(* ===================================================================== *)
(** ** The process state: files, standard output, trace of outside calls *)
(* ===================================================================== *)

(** What a path names.  [Regular] is an ordinary file with its bytes;
    [Special] is a device or pipe (it opens, but cannot be truncated);
    [Unopenable] stands for every path on which [os.OpenFile] fails (a
    directory, a file without permission, a path under a missing
    directory).  A path that is not in the map does not exist yet and can be
    created.  A file is identified with the path it is opened by: the map
    does not relate two spellings of one file (a relative and an absolute
    path, a link), so nothing below speaks about a file under another
    spelling than the one on the command line. *)
Inductive node : Type :=
  | Regular (data : string)
  | Special
  | Unopenable.

(** An [*os.File] that is not nil: the standard output stream or an open
    file, identified by the path it was opened with. *)
Inductive os_File : Type :=
  | os_Stdout
  | os_Handle (path : string).

(** Go [error] values as the driver makes and passes them: library errors
    and [fmt.Errorf]/[errors.New] results carry their text; errors returned
    by the generator are the kinds of the specification's taxonomy. *)
Inductive GenError : Type :=
  | ConfigurationError
  | ResolutionError (typeName : string)
  | SelectorSyntaxError (raw : string)
  | UnresolvedTypeError (shape : nat)
  | InternalError.

Inductive error : Type :=
  | LibError (text : string)
  | Errorf (text : string)
  | GenErr (e : GenError).

(** Calls that leave the driver. *)
Inductive Event : Type :=
  | EvOpenFile (path : string)
  | EvClose (f : os_File)
  | EvTruncate (path : string)
  | EvLoad (patterns : string)
  | EvNewGenerator
  | EvGenerate (types : list string)
  | EvWrite (w : os_File) (text : string).

(** The state of the process and of the files around it: what each path
    names, the bytes written to the standard output stream (through
    [os.Stdout]), and the outside calls made so far. *)
Record State : Type := mkState {
  files : gmap string node;
  stdout : string;
  trace : list Event
}.

Definition log (e : Event) (st : State) : State :=
  mkState (files st) (stdout st) (trace st ++ [e]).

Definition set_files (fs : gmap string node) (st : State) : State :=
  mkState fs (stdout st) (trace st).

(** [os.OpenFile(v, os.O_RDWR|os.O_CREATE, 0o666)]: an existing regular or
    special file is opened as it is, a missing one is created empty. *)
Definition os_OpenFile (v : string) (st : State) : (os_File + error) * State :=
  let st := log (EvOpenFile v) st in
  match files st !! v with
  | Some (Regular _) | Some Special => (inl (os_Handle v), st)
  | Some Unopenable => (inr (LibError ("open " +:+ v)), st)
  | None => (inl (os_Handle v), set_files (<[v := Regular ""]> (files st)) st)
  end.

(** [Truncate(0)] on an open file: a regular file becomes empty, anything
    else (a device, a pipe, the standard output stream as a terminal) fails. *)
Definition File_Truncate0 (f : os_File) (st : State) : option error * State :=
  match f with
  | os_Stdout => (Some (LibError "truncate /dev/stdout"), st)
  | os_Handle p =>
      let st := log (EvTruncate p) st in
      match files st !! p with
      | Some (Regular _) => (None, set_files (<[p := Regular ""]> (files st)) st)
      | _ => (Some (LibError ("truncate " +:+ p)), st)
      end
  end.

(** [Close()] on an open file. *)
Definition File_Close (f : os_File) (st : State) : State := log (EvClose f) st.

(** [w.Write(text)] on a writer that has not been written before: the
    standard output stream grows by [text]; a file handle, whose offset is
    still 0, has its first bytes overwritten by [text]. *)
Definition Writer_Write (w : os_File) (text : string) (st : State) : State :=
  let st := log (EvWrite w text) st in
  match w with
  | os_Stdout => mkState (files st) (stdout st +:+ text) (trace st)
  | os_Handle p =>
      match files st !! p with
      | Some (Regular old) =>
          set_files (<[p := Regular (text +:+ string_drop (String.length text) old)]> (files st)) st
      | _ => st
      end
  end.

(* ===================================================================== *)
(** ** The flag values of the driver *)
(* ===================================================================== *)

(* type typesVal []string *)
Abbreviation typesVal := (list string) (only parsing).

Definition typesVal_String (f : typesVal) : string := strings_Join f ",".

Definition typesVal_Set (f : typesVal) (v : string) : typesVal * option error :=
  (f ++ [v], None).

(* type skipsVal deepcopy.SkipLists: a slice of map[string]struct{} *)
Abbreviation skipsVal := (list (gset string)) (only parsing).

(** The order in which Go's [range] visits the keys of a map is not fixed;
    a run fixes one order for each key set. *)
Definition RangeOrder : Type := gset string -> list string.

Definition valid_order (order : RangeOrder) : Prop :=
  forall m : gset string, order m ≡ₚ elements m.

Definition skipsVal_String (order : RangeOrder) (f : skipsVal) : string :=
  let parts := map (fun m => strings_Join (order m) ",") f in
  strings_Join parts ",".

Definition skipsVal_Set (f : skipsVal) (v : string) : skipsVal * option error :=
  let parts := strings_Split v comma in
  let set := foldl (fun (m : gset string) p => {[p]} ∪ m) ∅ parts in
  (f ++ [set], None).

Record outputVal : Type := mkOutputVal {
  file : option os_File;
  name : string
}.

Definition outputVal_String (f : outputVal) : string := name f.

Definition outputVal_Set (f : outputVal) (v : string) (st : State)
  : outputVal * option error * State :=
  if (String.eqb v "-" || String.eqb v "")%bool then
    let st := match file f with
              | Some h => File_Close h st
              | None => st
              end in
    (mkOutputVal None "stdout", None, st)
  else
    match os_OpenFile v st with
    | (inr _, st) => (f, Some (Errorf ("opening file: " +:+ v)), st)
    | (inl h, st) => (mkOutputVal (Some h) v, None, st)
    end.

Definition outputVal_Open (f : outputVal) (st : State)
  : outputVal * (os_File + error) * State :=
  match file f with
  | None => (mkOutputVal (Some os_Stdout) (name f), inl os_Stdout, st)
  | Some h =>
      match File_Truncate0 h st with
      | (Some err, st) => (f, inr err, st)
      | (None, st) => (f, inl h, st)
      end
  end.

(* type buildTagsVal []string *)
Abbreviation buildTagsVal := (list string) (only parsing).

Definition buildTagsVal_String (b : buildTagsVal) : string := strings_Join b ",".

Definition buildTagsVal_Set (b : buildTagsVal) (v : string) : buildTagsVal * option error :=
  (b ++ [v], None).

(* ===================================================================== *)
(** ** The [deepcopy] package: data model *)
(* ===================================================================== *)

(** Results of the generator's stages: a value or the first error. *)
Definition bindE {A B : Type} (r : GenError + A) (k : A -> GenError + B) : GenError + B :=
  match r with
  | inl e => inl e
  | inr a => k a
  end.

Notation "x <-! r ;; k" := (bindE r (fun x => k))
  (at level 100, r at next level, right associativity).

Fixpoint mapE {A B : Type} (f : A -> GenError + B) (l : list A) : GenError + list B :=
  match l with
  | [] => inr []
  | a :: rest => b <-! f a ;; bs <-! mapE f rest ;; inr (b :: bs)
  end.

(** Modelled from the spec: the [Field] and [TypeShape] of the data model
    (the [deepcopy] package that declares them is not part of the driver).
    Shapes live in an index-addressed arena and refer to one another by
    index, which is how a self-referential type is a finite object. *)
Record Field : Type := mkField {
  fieldName : string;
  fieldShape : nat;
  embedded : bool;
  exported : bool
}.

Inductive TypeShape : Type :=
  | Basic (kind : string)
  | Named (underlying : nat) (declaringPackage : string)
  | Pointer (elem : nat)
  | Slice (elem : nat)
  | Array (elem : nat) (length : N)
  | Map (key : nat) (elem : nat)
  | Struct (fields : list Field)
  | Interface.

(** Modelled from the spec: the resolved package handed to the generator:
    the shape each declared type name resolves to, and the arena. *)
Record Package : Type := mkPackage {
  pkgPath : string;
  decls : gmap string nat;
  arena : list TypeShape
}.

(** Modelled from the spec: a selector is an ordered sequence of path
    segments, each a field name or the wildcard for any slice/map element. *)
Inductive Segment : Type :=
  | SegField (fieldName : string)
  | SegAny.

#[global] Instance Segment_eq_dec : EqDecision Segment.
Proof. solve_decision. Defined.

Abbreviation Selector := (list Segment) (only parsing).

(** Modelled from the spec: the nodes of a copy plan.  The plan under a
    [CycleGuard] is the plan of the ancestor that the cycle returns to, which
    is still being built when the guard is emitted; the guard names that
    ancestor by its shape index. *)
#[warnings="-register-all"]
Inductive CopyPlanNode : Type :=
  | DirectAssign
  | AllocateAndRecurse (inner : CopyPlanNode)
  | Elementwise (inner : CopyPlanNode)
  | Fieldwise (children : list CopyPlanNode)
  | DynamicDispatch
  | CycleGuard (ancestor : nat).

(** Modelled from the spec: the immutable request of one run, with the
    fields in the order in which the driver passes them to [NewGenerator]. *)
Record Generator : Type := mkGenerator {
  isPtrRecv : bool;
  methodName : string;
  skipLists : list (gset string);
  maxDepth : Z;
  allowedCopyToAnotherStruct : bool;
  returnInterface : string;
  returnInterfaceDep : string;
  returnInterfaceDepPath : string;
  buildTags : list string
}.

(** Modelled from the spec: construction validates the request; the
    destination parameter is permitted only with a pointer receiver.  The
    driver receives a single value from [NewGenerator], so a rejection can
    only end the process; the driver below treats [inl] that way. *)
Definition NewGenerator (pointerReceiver : bool) (method : string)
    (sl : list (gset string)) (maxdepth : Z) (anotherStruct : bool)
    (retIface retIfaceDep retIfaceDepPath : string) (tags : list string)
  : GenError + Generator :=
  if (anotherStruct && negb pointerReceiver)%bool then inl ConfigurationError
  else inr (mkGenerator pointerReceiver method sl maxdepth anotherStruct
              retIface retIfaceDep retIfaceDepPath tags).

(** Modelled from the spec: the skip set of the [i]-th requested type; a
    requested type with no corresponding skip entry has an empty one. *)
Definition SkipLists_Get (sl : list (gset string)) (i : nat) : gset string :=
  match sl !! i with
  | Some m => m
  | None => ∅
  end.

(* ===================================================================== *)
(** ** Selector Compiler *)
(* ===================================================================== *)

Definition string_le (a b : string) : Prop := String.leb a b = true.

#[global] Instance string_le_dec (a b : string) : Decision (string_le a b).
Proof. unfold string_le. apply _. Defined.

Section SelectorCompiler.
  (** The specification fixes neither the segment delimiter nor the spelling
      of the wildcard segment. *)
  Variable delim : ascii.
  Variable wildcard : string.

Definition compileSegment (s : string) : option Segment :=
    if String.eqb s "" then None
    else if String.eqb s wildcard then Some SegAny
    else Some (SegField s).

  (** Modelled from the spec: one raw string is one path; an empty segment
      is a syntax error. *)
Definition compileSelector (raw : string) : GenError + list Segment :=
    match mapM compileSegment (strings_Split raw delim) with
    | Some sel => inr sel
    | None => inl (SelectorSyntaxError raw)
    end.

  (** Modelled from the spec: [compile].  The raw strings arrive in the
      order in which the host's map happens to enumerate them; they are
      sorted lexicographically before anything is driven by them, and the
      first malformed one in that order is the error. *)
Definition compile (raws : list string) : GenError + list (list Segment) :=
    mapE compileSelector (merge_sort string_le raws).
End SelectorCompiler.

(* ===================================================================== *)
(** ** Type Graph Walker *)
(* ===================================================================== *)

(** A walk either delivers a plan, fails, or exhausts its step budget. *)
Inductive Res (A : Type) : Type :=
  | Ok (a : A)
  | Err (e : GenError)
  | OutOfFuel.
Arguments Ok {A} a.
Arguments Err {A} e.
Arguments OutOfFuel {A}.

Definition res_map {A B : Type} (f : A -> B) (r : Res A) : Res B :=
  match r with
  | Ok a => Ok (f a)
  | Err e => Err e
  | OutOfFuel => OutOfFuel
  end.

Fixpoint res_mapM {A B : Type} (f : A -> Res B) (l : list A) : Res (list B) :=
  match l with
  | [] => Ok []
  | a :: rest =>
      match f a with
      | Ok b => res_map (cons b) (res_mapM f rest)
      | Err e => Err e
      | OutOfFuel => OutOfFuel
      end
  end.

(** "depth has reached maxDepth (nonzero)". *)
Definition depth_reached (maxDepth : Z) (depth : nat) : bool :=
  (negb (maxDepth =? 0)%Z && (maxDepth <=? Z.of_nat depth)%Z)%bool.

(** "the shape is a pointer/struct requiring further allocation". *)
Definition needs_allocation (shape : TypeShape) : bool :=
  match shape with
  | Pointer _ | Struct _ => true
  | _ => false
  end.

Definition selector_matches (skipSet : list (list Segment)) (path : list Segment) : bool :=
  bool_decide (path ∈ skipSet).

Section Walker.
  Variable shapes : list TypeShape.
  Variable skipSet : list (list Segment).
  Variable maxDepth : Z.

  (** Modelled from the spec: the walk of section 4.2.  A matching selector
      comes first.  The specification gives the next two tests in both
      orders: the algorithm of section 4.2 lists the depth bound before the
      ancestor stack, the invariant of section 3 requires that cycle
      detection strictly precedes depth counting, so that a revisited shape
      always becomes a [CycleGuard].  The walk follows the invariant: the
      ancestor stack is consulted before the depth bound, then comes the
      dispatch on the shape kind.  Depth grows when a pointer or a struct
      boundary is crossed; a slice, array or map adds the wildcard segment
      to the path, a field adds its name.  A shape index the arena does not
      hold is an unresolved type. *)
Fixpoint walk_fuel (fuel : nat) (path : list Segment) (ancestors : list nat)
      (depth : nat) (id : nat) : Res CopyPlanNode :=
    match fuel with
    | O => OutOfFuel
    | S fuel' =>
        if selector_matches skipSet path then Ok DirectAssign
        else if bool_decide (id ∈ ancestors) then Ok (CycleGuard id)
        else match shapes !! id with
        | None => Err (UnresolvedTypeError id)
        | Some shape =>
            if (depth_reached maxDepth depth && needs_allocation shape)%bool
            then Ok DirectAssign
            else
              let anc := id :: ancestors in
              match shape with
              | Basic _ => Ok DirectAssign
              | Interface => Ok DynamicDispatch
              | Named u _ => walk_fuel fuel' path anc depth u
              | Pointer e =>
                  res_map AllocateAndRecurse (walk_fuel fuel' path anc (S depth) e)
              | Slice e | Array e _ | Map _ e =>
                  res_map Elementwise (walk_fuel fuel' (path ++ [SegAny]) anc depth e)
              | Struct fields =>
                  res_map Fieldwise
                    (res_mapM (fun f => walk_fuel fuel'
                                          (path ++ [SegField (fieldName f)]) anc
                                          (S depth) (fieldShape f))
                       fields)
              end
        end
    end.

  (** Modelled from the spec: [walk].  The step budget is one more than the
      number of shapes in the arena; running out of it is the fatal internal
      error of the safety net of section 5. *)
Definition walk (root : nat) : GenError + CopyPlanNode :=
    match walk_fuel (S (length shapes)) [] [] 0 root with
    | Ok plan => inr plan
    | Err e => inl e
    | OutOfFuel => inl InternalError
    end.
End Walker.

(** The shape indices a shape refers to. *)
Definition shape_refs (shape : TypeShape) : list nat :=
  match shape with
  | Basic _ | Interface => []
  | Named u _ => [u]
  | Pointer e | Slice e | Array e _ => [e]
  | Map k e => [k; e]
  | Struct fields => map fieldShape fields
  end.

(** "Resolvable": every shape the arena refers to is in the arena. *)
Definition arena_closed (shapes : list TypeShape) : Prop :=
  forall id shape r, shapes !! id = Some shape -> In r (shape_refs shape) ->
    r < length shapes.

(* ===================================================================== *)
(** ** Generator (orchestrator) *)
(* ===================================================================== *)

(** "a struct (or a named type whose underlying shape is a struct)". *)
Definition struct_like (shapes : list TypeShape) (id : nat) : bool :=
  match shapes !! id with
  | Some (Struct _) => true
  | Some (Named u _) =>
      match shapes !! u with
      | Some (Struct _) => true
      | _ => false
      end
  | _ => false
  end.

(** Modelled from the spec: a requested name that is absent from the
    package, or that is not struct-like, is a resolution error. *)
Definition resolve (pkg : Package) (typeName : string) : GenError + nat :=
  match decls pkg !! typeName with
  | None => inl (ResolutionError typeName)
  | Some id =>
      if struct_like (arena pkg) id then inr id
      else inl (ResolutionError typeName)
  end.

Section Generator.
  Variable delim : ascii.
  Variable wildcard : string.
  (** The order in which this run enumerates the keys of a selector map. *)
  Variable order : RangeOrder.
  (** Synthesizer, dependency tracker and emitter: the text of the artifact
      for the plans of the requested types, in request order.  The
      specification does not give the text. *)
  Variable emit : Generator -> Package -> list (string * CopyPlanNode) -> string.

  (** Modelled from the spec: one requested type: resolve its shape, compile
      its skip set, build its plan. *)
Definition generateType (g : Generator) (pkg : Package) (i : nat) (typeName : string)
    : GenError + (string * CopyPlanNode) :=
    id <-! resolve pkg typeName ;;
    sels <-! compile delim wildcard (order (SkipLists_Get (skipLists g) i)) ;;
    plan <-! walk (arena pkg) sels (maxDepth g) id ;;
    inr (typeName, plan).

  (** The requested types from position [i] on, in the order supplied; the
      first error ends the run. *)
Fixpoint generateFrom (g : Generator) (pkg : Package) (i : nat) (types : list string)
    : GenError + list (string * CopyPlanNode) :=
    match types with
    | [] => inr []
    | t :: rest =>
        p <-! generateType g pkg i t ;;
        ps <-! generateFrom g pkg (S i) rest ;;
        inr (p :: ps)
    end.

  (** Modelled from the spec: [generate] buffers the text of every requested
      type and writes the buffer to the sink only after all of them have
      succeeded. *)
Definition Generator_Generate (g : Generator) (w : os_File) (types : list string)
      (pkg : Package) (st : State) : option error * State :=
    let st := log (EvGenerate types) st in
    match generateFrom g pkg 0 types with
    | inl e => (Some (GenErr e), st)
    | inr plans => (None, Writer_Write w (emit g pkg plans) st)
    end.
End Generator.

(* ===================================================================== *)
(** ** The driver: flags, [main], [run], [load] *)
(* ===================================================================== *)

(** The package-level flag variables. *)
Record Flags : Type := mkFlags {
  pointerReceiverF : bool;
  maxDepthF : Z;
  methodF : string;
  returnInterfaceF : string;
  returnInterfaceDepF : string;
  returnInterfaceDepPathF : string;
  allowedCopyToAnotherStructF : bool;
  typesF : list string;
  skipsF : list (gset string);
  outputF : outputVal;
  buildTagsF : list string
}.

(** Their values before [flag.Parse]: the declared defaults and the zero
    values of the four [flag.Var] variables. *)
Definition initial_flags : Flags :=
  mkFlags false 0 "DeepCopy" "" "" "" false [] [] (mkOutputVal None "") [].

(** One flag occurrence of the command line, as [flag.Parse] meets it:
    a boolean flag with its value, [-maxdepth] with the integer its
    argument denotes, the others with their argument string.  [A_refused]
    is an occurrence that [flag.Parse] refuses by itself, without storing
    anything: a flag that is not defined, a flag whose argument is missing,
    a boolean or integer flag whose value is malformed, [-h] or [-help]; it
    carries the text of the error the flag package reports. *)
Inductive Arg : Type :=
  | A_pointer_receiver (b : bool)
  | A_maxdepth (n : Z)
  | A_method (s : string)
  | A_return_interface (s : string)
  | A_return_interface_dep (s : string)
  | A_return_interface_dep_path (s : string)
  | A_another_struct (b : bool)
  | A_type (v : string)
  | A_skip (v : string)
  | A_o (v : string)
  | A_tags (v : string)
  | A_refused (text : string).

Definition with_types (fl : Flags) (t : list string) : Flags :=
  mkFlags (pointerReceiverF fl) (maxDepthF fl) (methodF fl) (returnInterfaceF fl)
    (returnInterfaceDepF fl) (returnInterfaceDepPathF fl)
    (allowedCopyToAnotherStructF fl) t (skipsF fl) (outputF fl) (buildTagsF fl).

Definition with_skips (fl : Flags) (s : list (gset string)) : Flags :=
  mkFlags (pointerReceiverF fl) (maxDepthF fl) (methodF fl) (returnInterfaceF fl)
    (returnInterfaceDepF fl) (returnInterfaceDepPathF fl)
    (allowedCopyToAnotherStructF fl) (typesF fl) s (outputF fl) (buildTagsF fl).

Definition with_output (fl : Flags) (o : outputVal) : Flags :=
  mkFlags (pointerReceiverF fl) (maxDepthF fl) (methodF fl) (returnInterfaceF fl)
    (returnInterfaceDepF fl) (returnInterfaceDepPathF fl)
    (allowedCopyToAnotherStructF fl) (typesF fl) (skipsF fl) o (buildTagsF fl).

Definition with_buildTags (fl : Flags) (b : list string) : Flags :=
  mkFlags (pointerReceiverF fl) (maxDepthF fl) (methodF fl) (returnInterfaceF fl)
    (returnInterfaceDepF fl) (returnInterfaceDepPathF fl)
    (allowedCopyToAnotherStructF fl) (typesF fl) (skipsF fl) (outputF fl) b.

(** [maxDepthF] is a Go [int], taken to be 64 bits wide: the flag package
    refuses an integer outside its range. *)
Definition in_int_range (n : Z) : bool :=
  ((- 2 ^ 63 <=? n) && (n <? 2 ^ 63))%Z.

Definition out_of_range : string :=
  "invalid value for flag -maxdepth: value out of range".

(** The flag package stores an occurrence: a plain flag overwrites its
    variable, a [flag.Var] flag calls [Set] on its value; an occurrence the
    package refuses leaves the variables as they are and is an error. *)
Definition flag_set (a : Arg) (fl : Flags) (st : State) : Flags * option error * State :=
  match a with
  | A_pointer_receiver b =>
      (mkFlags b (maxDepthF fl) (methodF fl) (returnInterfaceF fl)
         (returnInterfaceDepF fl) (returnInterfaceDepPathF fl)
         (allowedCopyToAnotherStructF fl) (typesF fl) (skipsF fl) (outputF fl)
         (buildTagsF fl), None, st)
  | A_maxdepth n =>
      if in_int_range n then
        (mkFlags (pointerReceiverF fl) n (methodF fl) (returnInterfaceF fl)
           (returnInterfaceDepF fl) (returnInterfaceDepPathF fl)
           (allowedCopyToAnotherStructF fl) (typesF fl) (skipsF fl) (outputF fl)
           (buildTagsF fl), None, st)
      else (fl, Some (LibError out_of_range), st)
  | A_method s =>
      (mkFlags (pointerReceiverF fl) (maxDepthF fl) s (returnInterfaceF fl)
         (returnInterfaceDepF fl) (returnInterfaceDepPathF fl)
         (allowedCopyToAnotherStructF fl) (typesF fl) (skipsF fl) (outputF fl)
         (buildTagsF fl), None, st)
  | A_return_interface s =>
      (mkFlags (pointerReceiverF fl) (maxDepthF fl) (methodF fl) s
         (returnInterfaceDepF fl) (returnInterfaceDepPathF fl)
         (allowedCopyToAnotherStructF fl) (typesF fl) (skipsF fl) (outputF fl)
         (buildTagsF fl), None, st)
  | A_return_interface_dep s =>
      (mkFlags (pointerReceiverF fl) (maxDepthF fl) (methodF fl) (returnInterfaceF fl)
         s (returnInterfaceDepPathF fl)
         (allowedCopyToAnotherStructF fl) (typesF fl) (skipsF fl) (outputF fl)
         (buildTagsF fl), None, st)
  | A_return_interface_dep_path s =>
      (mkFlags (pointerReceiverF fl) (maxDepthF fl) (methodF fl) (returnInterfaceF fl)
         (returnInterfaceDepF fl) s
         (allowedCopyToAnotherStructF fl) (typesF fl) (skipsF fl) (outputF fl)
         (buildTagsF fl), None, st)
  | A_another_struct b =>
      (mkFlags (pointerReceiverF fl) (maxDepthF fl) (methodF fl) (returnInterfaceF fl)
         (returnInterfaceDepF fl) (returnInterfaceDepPathF fl)
         b (typesF fl) (skipsF fl) (outputF fl) (buildTagsF fl), None, st)
  | A_type v =>
      let '(t, err) := typesVal_Set (typesF fl) v in (with_types fl t, err, st)
  | A_skip v =>
      let '(s, err) := skipsVal_Set (skipsF fl) v in (with_skips fl s, err, st)
  | A_o v =>
      let '(o, err, st) := outputVal_Set (outputF fl) v st in (with_output fl o, err, st)
  | A_tags v =>
      let '(b, err) := buildTagsVal_Set (buildTagsF fl) v in (with_buildTags fl b, err, st)
  | A_refused text => (fl, Some (LibError text), st)
  end.

(** [flag.Parse()]: the occurrences in command-line order; the command-line
    flag set exits the process at the first occurrence that it refuses or
    whose [Set] returns an error.  The occurrences before that one have
    been stored, and their [Set] calls have had their effects. *)
Fixpoint flag_Parse (args : list Arg) (fl : Flags) (st : State) : (Flags + error) * State :=
  match args with
  | [] => (inl fl, st)
  | a :: rest =>
      match flag_set a fl st with
      | (_, Some err, st) => (inr err, st)
      | (fl, None, st) => flag_Parse rest fl st
      end
  end.

(** How a run of the driver ends. *)
Inductive Outcome : Type :=
  | Exit0
  | ExitUsage (err : error)
  | Fatalln (msg : string) (err : option error)
  | Rejected (e : GenError).

Section Driver.
  (** [packages.Load] with the driver's fixed mode, on the files as they are
      when it is called: the packages matching the pattern, or the text of
      its error. *)
  Variable packages_Load : gmap string node -> string -> string + list Package.
  Variable delim : ascii.
  Variable wildcard : string.
  Variable order : RangeOrder.
  Variable emit : Generator -> Package -> list (string * CopyPlanNode) -> string.

Definition load (patterns : string) (st : State) : (string + list Package) * State :=
    let st := log (EvLoad patterns) st in
    (packages_Load (files st) patterns, st).

Definition run (g : Generator) (w : os_File) (path : string) (types : list string)
      (st : State) : option error * State :=
    match load path st with
    | (inl err, st) => (Some (Errorf ("loading package: " +:+ err)), st)
    | (inr packages, st) =>
        match packages with
        | [] => (Some (Errorf "no package found"), st)
        | pkg0 :: _ => Generator_Generate delim wildcard order emit g w types pkg0 st
        end
    end.

Definition main (args : list Arg) (positional : list string) (st : State)
    : Outcome * State :=
    match flag_Parse args initial_flags st with
    | (inr err, st) => (ExitUsage err, st)
    | (inl fl, st) =>
        if (Nat.eqb (length (typesF fl)) 0 || String.eqb (nth 0 (typesF fl) "") "")%bool
        then (Fatalln "no type given" None, st)
        else if negb (Nat.eqb (length positional) 1)
        then (Fatalln "No package path given" None, st)
        else
          let sl := skipsF fl in
          let st := log EvNewGenerator st in
          match NewGenerator (pointerReceiverF fl) (methodF fl) sl (maxDepthF fl)
                  (allowedCopyToAnotherStructF fl) (returnInterfaceF fl)
                  (returnInterfaceDepF fl) (returnInterfaceDepPathF fl)
                  (buildTagsF fl) with
          | inl e => (Rejected e, st)
          | inr generator =>
              match outputVal_Open (outputF fl) st with
              | (_, inr err, st) =>
                  (Fatalln "Error initializing output file:" (Some err), st)
              | (_, inl output, st) =>
                  match run generator output (nth 0 positional "") (typesF fl) st with
                  | (Some err, st) =>
                      (Fatalln "Error generating deep copy method:" (Some err), st)
                  | (None, st) => (Exit0, File_Close output st)
                  end
              end
          end
    end.
End Driver.

(* ===================================================================== *)
(** ** Reading a command line and a trace *)
(* ===================================================================== *)

(** The arguments of the occurrences of one repeatable flag, in
    command-line order. *)
Definition type_args (args : list Arg) : list string :=
  omap (fun a => match a with A_type v => Some v | _ => None end) args.

Definition skip_args (args : list Arg) : list string :=
  omap (fun a => match a with A_skip v => Some v | _ => None end) args.

Definition tags_args (args : list Arg) : list string :=
  omap (fun a => match a with A_tags v => Some v | _ => None end) args.

Definition o_args (args : list Arg) : list string :=
  omap (fun a => match a with A_o v => Some v | _ => None end) args.

(** The file a [-o] value names, if it names one. *)
Definition names_file (v : string) : option string :=
  if (String.eqb v "-" || String.eqb v "")%bool then None else Some v.

(** The file the last [-o] occurrence names; [None] when there is no [-o]
    or the last one stands for the standard output stream. *)
Definition output_path (args : list Arg) : option string :=
  match last (o_args args) with
  | Some v => names_file v
  | None => None
  end.

(** The writer [outputF.Open] returns for that command line. *)
Definition output_writer (args : list Arg) : os_File :=
  match output_path args with
  | Some p => os_Handle p
  | None => os_Stdout
  end.

(** The last element of a list, or a default. *)
Definition last_or {A : Type} (d : A) (l : list A) : A :=
  match last l with
  | Some x => x
  | None => d
  end.

(** The values of the two boolean flags the constructor checks: the last
    occurrence of each decides, the default is [false]. *)
Definition another_struct_args (args : list Arg) : list bool :=
  omap (fun a => match a with A_another_struct b => Some b | _ => None end) args.

Definition pointer_receiver_args (args : list Arg) : list bool :=
  omap (fun a => match a with A_pointer_receiver b => Some b | _ => None end) args.

Definition requests_destination (args : list Arg) : bool :=
  last_or false (another_struct_args args).

Definition requests_pointer_receiver (args : list Arg) : bool :=
  last_or false (pointer_receiver_args args).

(** The file behind an output value exists and can be opened. *)
Definition opened (fs : gmap string node) (o : outputVal) : Prop :=
  forall p, file o = Some (os_Handle p) ->
    exists n, fs !! p = Some n /\ n <> Unopenable.

(** The events a run adds to the trace it starts with. *)
Definition new_events (st st' : State) : list Event :=
  drop (length (trace st)) (trace st').

(** Events of flag parsing: opening and closing output files. *)
Definition parse_event (e : Event) : bool :=
  match e with
  | EvOpenFile _ | EvClose _ => true
  | _ => false
  end.

Definition is_load (e : Event) : bool :=
  match e with EvLoad _ => true | _ => false end.

Definition is_generate (e : Event) : bool :=
  match e with EvGenerate _ => true | _ => false end.

Definition is_write (e : Event) : bool :=
  match e with EvWrite _ _ => true | _ => false end.

(** A path is left as it was, or did not exist and now is an empty regular
    file. *)
Definition kept_or_created (before after : gmap string node) (p : string) : Prop :=
  after !! p = before !! p \/ (before !! p = None /\ after !! p = Some (Regular "")).

(** The skip set one [-skip] argument denotes. *)
Definition skip_set_of (v : string) : gset string :=
  list_to_set (strings_Split v comma).

(** The error of an occurrence that [flag.Parse] refuses by itself. *)
Definition refusal (a : Arg) : option string :=
  match a with
  | A_refused text => Some text
  | A_maxdepth n => if in_int_range n then None else Some out_of_range
  | _ => None
  end.

(** The errors of the occurrences that [flag.Parse] refuses by itself. *)
Definition refused_args (args : list Arg) : list string := omap refusal args.

(** The call of the constructor in [main], on the flag variables. *)
Definition generator_of (fl : Flags) : GenError + Generator :=
  NewGenerator (pointerReceiverF fl) (methodF fl) (skipsF fl) (maxDepthF fl)
    (allowedCopyToAnotherStructF fl) (returnInterfaceF fl)
    (returnInterfaceDepF fl) (returnInterfaceDepPathF fl) (buildTagsF fl).

(** The files as they are when [run] calls the loader, in a run that gets
    that far: flag parsing has opened, and created where absent, the files
    named by the [-o] occurrences, and [outputF.Open] has truncated the one
    named by the last of them. *)
Definition files_at_load (args : list Arg) (st : State) : gmap string node :=
  let st1 := (flag_Parse args initial_flags st).2 in
  match output_path args with
  | Some p => <[p := Regular ""]> (files st1)
  | None => files st1
  end.

(** The skip set that belongs to the requested type at position [i]: the
    set of the [i]-th [-skip] occurrence, the empty set when there are fewer
    occurrences. *)
Definition skip_set_at (args : list Arg) (i : nat) : gset string :=
  match skip_args args !! i with
  | Some v => skip_set_of v
  | None => ∅
  end.

(* ===================================================================== *)
(** ** Sample inputs *)
(* ===================================================================== *)

(** A delimiter and a wildcard spelling for the selector compiler. *)
Definition sample_delim : ascii := "."%char.
Definition sample_wildcard : string := "*".

(** A stand-in for the emitter: the build tags, the package, and the method
    generated for each requested type, in the order of the plans. *)
Definition sample_emit (g : Generator) (pkg : Package)
    (plans : list (string * CopyPlanNode)) : string :=
  strings_Join
    (buildTags g ++ [pkgPath pkg] ++ map (fun p => methodName g +:+ ":" +:+ p.1) plans)
    ";".

(** A second enumeration order of map keys. *)
Definition reversed_order : RangeOrder := fun m => reverse (elements m).

(** [type Node struct { Value int; Next *Node }]. *)
Definition node_arena : list TypeShape :=
  [ Named 1 "example";
    Struct [mkField "Value" 2 false true; mkField "Next" 3 false true];
    Basic "int";
    Pointer 0 ].

Definition node_package : Package :=
  mkPackage "example" {["Node" := 0]} node_arena.

(** [type A struct { p *B }] and [type B struct { q *B }]; the two fields
    have the same pointer shape. *)
Definition ab_arena : list TypeShape :=
  [ Named 1 "example";
    Struct [mkField "p" 2 false false];
    Pointer 3;
    Named 4 "example";
    Struct [mkField "q" 2 false false] ].

Definition ab_package : Package :=
  mkPackage "example" (<["A" := 0]> {["B" := 3]}) ab_arena.

Definition load_node : gmap string node -> string -> string + list Package :=
  fun _ _ => inr [node_package].

Definition load_ab : gmap string node -> string -> string + list Package :=
  fun _ _ => inr [ab_package].

Definition load_nothing : gmap string node -> string -> string + list Package :=
  fun _ _ => inr [].

(** A loader that reads the disk: the package is found when its source
    file is there. *)
Definition load_from_disk : gmap string node -> string -> string + list Package :=
  fun fs _ =>
    match fs !! "example/node.go" with
    | Some (Regular _) => inr [node_package]
    | _ => inr []
    end.

(** A file system in which [out.go] exists, and an empty one. *)
Definition disk_with_output : State :=
  mkState {["out.go" := Regular "old text"]} "" [].

Definition empty_disk : State := mkState ∅ "" [].

(** A file system with the source file of the package and an output file. *)
Definition disk_with_package : State :=
  mkState (<["example/node.go" := Regular "package example"]>
             {["out.go" := Regular "old text"]})
    "" [].

Definition sample_main (ld : gmap string node -> string -> string + list Package)
    (ord : RangeOrder) : list Arg -> list string -> State -> Outcome * State :=
  main ld sample_delim sample_wildcard ord sample_emit.

(** Sample runs of the driver. *)
Definition run_missing_type : Outcome * State :=
  sample_main load_node elements [A_type "Missing"; A_o "out.go"] ["./example"]
    disk_with_output.

Definition run_value_receiver_destination : Outcome * State :=
  sample_main load_node elements [A_type "Node"; A_another_struct true]
    ["./example"] disk_with_output.

Definition run_to_file : Outcome * State :=
  sample_main load_node elements [A_o "-"; A_type "Node"; A_o "out.go"]
    ["./example"] disk_with_output.

Definition run_to_stdout : Outcome * State :=
  sample_main load_node elements [A_o "out.go"; A_type "Node"; A_o "-"]
    ["./example"] disk_with_output.

Definition run_two_types : Outcome * State :=
  sample_main load_ab elements [A_type "B"; A_skip "q"; A_type "A"] ["./example"]
    empty_disk.

Definition run_empty_first_type : Outcome * State :=
  sample_main load_node elements [A_type ""; A_o "out.go"; A_type "Node"]
    ["./example"] disk_with_output.

Definition run_no_type : Outcome * State :=
  sample_main load_node elements [A_o "new.go"] ["./example"] empty_disk.

(* ===================================================================== *)
(** ** Further readings of strings, command lines and traces *)
(* ===================================================================== *)

(** Whether a byte occurs in a string. *)
Fixpoint string_mem (c : ascii) (s : string) : bool :=
  match s with
  | EmptyString => false
  | String c' r => (Ascii.eqb c' c || string_mem c r)%bool
  end.

(** The arguments of the remaining flags, in command-line order. *)
Definition maxdepth_args (args : list Arg) : list Z :=
  omap (fun a => match a with A_maxdepth n => Some n | _ => None end) args.

Definition method_args (args : list Arg) : list string :=
  omap (fun a => match a with A_method s => Some s | _ => None end) args.

Definition return_interface_args (args : list Arg) : list string :=
  omap (fun a => match a with A_return_interface s => Some s | _ => None end) args.

Definition return_interface_dep_args (args : list Arg) : list string :=
  omap (fun a => match a with A_return_interface_dep s => Some s | _ => None end) args.

Definition return_interface_dep_path_args (args : list Arg) : list string :=
  omap (fun a => match a with A_return_interface_dep_path s => Some s | _ => None end)
    args.

(** The [-o] occurrences alone: [Set] on the output value for each of them
    in turn, up to the first one that fails. *)
Fixpoint parse_outputs (vs : list string) (o : outputVal) (st : State)
  : (outputVal + error) * State :=
  match vs with
  | [] => (inl o, st)
  | v :: rest =>
      match outputVal_Set o v st with
      | (_, Some err, st) => (inr err, st)
      | (o, None, st) => parse_outputs rest o st
      end
  end.

(** The flag variables after a parse that started from [fl] and ended with
    the output value [o]: every plain flag holds its last value, every
    repeatable flag has its arguments appended. *)
Definition flags_after (args : list Arg) (fl : Flags) (o : outputVal) : Flags :=
  mkFlags
    (last_or (pointerReceiverF fl) (pointer_receiver_args args))
    (last_or (maxDepthF fl) (maxdepth_args args))
    (last_or (methodF fl) (method_args args))
    (last_or (returnInterfaceF fl) (return_interface_args args))
    (last_or (returnInterfaceDepF fl) (return_interface_dep_args args))
    (last_or (returnInterfaceDepPathF fl) (return_interface_dep_path_args args))
    (last_or (allowedCopyToAnotherStructF fl) (another_struct_args args))
    (typesF fl ++ type_args args)
    (skipsF fl ++ map skip_set_of (skip_args args))
    o
    (buildTagsF fl ++ tags_args args).

(** Two command lines give every flag the same sequence of values. *)
Definition same_flag_values (args1 args2 : list Arg) : Prop :=
  pointer_receiver_args args1 = pointer_receiver_args args2 /\
  maxdepth_args args1 = maxdepth_args args2 /\
  method_args args1 = method_args args2 /\
  return_interface_args args1 = return_interface_args args2 /\
  return_interface_dep_args args1 = return_interface_dep_args args2 /\
  return_interface_dep_path_args args1 = return_interface_dep_path_args args2 /\
  another_struct_args args1 = another_struct_args args2 /\
  type_args args1 = type_args args2 /\
  skip_args args1 = skip_args args2 /\
  o_args args1 = o_args args2 /\
  tags_args args1 = tags_args args2.

(** The paths of the [os.OpenFile] calls of a trace, in order. *)
Definition opened_paths (evs : list Event) : list string :=
  omap (fun e => match e with EvOpenFile p => Some p | _ => None end) evs.

(** What [outputVal.String] shows for a [-o] value that [Set] accepted. *)
Definition shown_name (v : string) : string :=
  match names_file v with
  | Some p => p
  | None => "stdout"
  end.

(** A file system with an ordinary file, a device and a directory. *)
Definition disk_with_devices : State :=
  mkState (<["out.go" := Regular "old text"]>
             (<["/dev/null" := Special]> {["/etc" := Unopenable]}))
    "" [].

(** Further sample runs of the driver. *)
Definition run_replaced_output : Outcome * State :=
  sample_main load_node elements [A_o "first.go"; A_type "Node"; A_o "out.go"]
    ["./example"] disk_with_output.

Definition run_without_package_path : Outcome * State :=
  sample_main load_node elements [A_type "Node"; A_o "out.go"] [] disk_with_output.

Definition run_output_is_directory : Outcome * State :=
  sample_main load_node elements [A_type "Node"; A_o "/etc"; A_o "out.go"]
    ["./example"] disk_with_devices.

Definition run_output_is_device : Outcome * State :=
  sample_main load_node elements [A_type "Node"; A_o "/dev/null"] ["./example"]
    disk_with_devices.

(** Sample runs with the loader that reads the disk: one that asks for a
    type the package does not declare, one whose package is not on the
    disk. *)
Definition run_missing_type_on_disk : Outcome * State :=
  sample_main load_from_disk elements [A_type "Missing"; A_o "out.go"] ["./example"]
    disk_with_package.

Definition run_package_not_on_disk : Outcome * State :=
  sample_main load_from_disk elements [A_type "Node"; A_o "out.go"] ["./example"]
    disk_with_output.

(** A run whose command line holds an occurrence that [flag.Parse] refuses,
    before a [-o] that names a directory. *)
Definition run_refused_then_directory : Outcome * State :=
  sample_main load_node elements
    [A_type "Node"; A_maxdepth (2 ^ 64); A_o "/etc"]
    ["./example"] disk_with_devices.

(* ===================================================================== *)
(** ** Lemmas: flag values and flag parsing *)
(* ===================================================================== *)

Example strings_Split_parts : strings_Split "a,b,,c" comma = ["a"; "b"; ""; "c"].
Proof. reflexivity. Qed.

Example strings_Split_empty : strings_Split "" comma = [""].
Proof. reflexivity. Qed.

Example strings_Join_parts : strings_Join ["a"; "b"; "c"] "," = "a,b,c".
Proof. reflexivity. Qed.

Lemma foldl_insert_keys (l : list string) (acc : gset string) :
  foldl (fun (m : gset string) p => {[p]} ∪ m) acc l = list_to_set l ∪ acc.
Proof.
  revert acc. induction l as [|a l IH]; intros acc; simpl.
  - set_solver.
  - rewrite IH. set_solver.
Qed.

Lemma skipsVal_Set_spec (f : list (gset string)) (v : string) :
  skipsVal_Set f v = (f ++ [skip_set_of v], None).
Proof.
  unfold skipsVal_Set, skip_set_of. rewrite foldl_insert_keys.
  do 2 f_equal. f_equal. set_solver.
Qed.


Lemma kept_or_created_trans fs1 fs2 fs3 p :
  kept_or_created fs1 fs2 p -> kept_or_created fs2 fs3 p -> kept_or_created fs1 fs3 p.
Proof.
  unfold kept_or_created. intros [H1|[H1 H1']] [H2|[H2 H2']].
  - left; congruence.
  - right; split; congruence.
  - right; split; congruence.
  - congruence.
Qed.

Lemma os_OpenFile_spec v st r st' :
  os_OpenFile v st = (r, st') ->
  trace st' = trace st ++ [EvOpenFile v] /\ stdout st' = stdout st /\
  (forall p, kept_or_created (files st) (files st') p) /\
  (forall h, r = inl h -> h = os_Handle v /\
     exists n, files st' !! v = Some n /\ n <> Unopenable).
Proof.
  unfold os_OpenFile. simpl.
  destruct (files st !! v) as [[d| |]|] eqn:E; intros [= <- <-]; simpl;
    (split; [done|]); (split; [done|]); split.
  - intros p; by left.
  - intros h [= <-]; split; [done|]. exists (Regular d). by rewrite E.
  - intros p; by left.
  - intros h [= <-]; split; [done|]. exists Special. by rewrite E.
  - intros p; by left.
  - intros h [=].
  - intros p. destruct (decide (v = p)) as [->|Hne].
    + right. split; [done|]. by rewrite lookup_insert_eq.
    + left. by rewrite lookup_insert_ne.
  - intros h [= <-]; split; [done|]. exists (Regular ""). by rewrite lookup_insert_eq.
Qed.



Lemma outputVal_Set_spec f v st f' e st' :
  outputVal_Set f v st = (f', e, st') ->
  (exists evs, trace st' = trace st ++ evs /\ Forall (fun x => parse_event x = true) evs) /\
  stdout st' = stdout st /\
  (forall p, kept_or_created (files st) (files st') p) /\
  (e = None -> file f' = os_Handle <$> names_file v /\ (opened (files st) f -> opened (files st') f')).
Proof.
  unfold outputVal_Set, names_file.
  destruct (String.eqb v "-" || String.eqb v "")%bool eqn:Ev.
  - intros [= <- <- <-]. destruct (file f) as [h|]; simpl.
    + split; [exists [EvClose h]; split; [done|by constructor]|].
      split; [done|]. split; [intros p; by left|].
      intros _. split; [done|]. intros _ p [=].
    + split; [exists []; split; [by rewrite app_nil_r|constructor]|].
      split; [done|]. split; [intros p; by left|].
      intros _. split; [done|]. intros _ p [=].
  - destruct (os_OpenFile v st) as [[h|err] st1] eqn:Eo; intros [= <- <- <-];
      destruct (os_OpenFile_spec _ _ _ _ Eo) as (Ht & Hs & Hk & Hh).
    + split; [exists [EvOpenFile v]; split; [done|by constructor]|].
      split; [done|]. split; [done|].
      intros _. destruct (Hh h eq_refl) as (-> & n & Hn & Hne).
      split; [done|]. intros _ p [= <-]. by exists n.
    + split; [exists [EvOpenFile v]; split; [done|by constructor]|].
      split; [done|]. split; [done|]. intros [=].
Qed.

(** What one occurrence does to the state and to the flag variables. *)
Lemma flag_set_state a fl st fl' e st' :
  flag_set a fl st = (fl', e, st') ->
  (exists evs, trace st' = trace st ++ evs /\ Forall (fun x => parse_event x = true) evs) /\
  stdout st' = stdout st /\
  (forall p, kept_or_created (files st) (files st') p) /\
  (e = None -> opened (files st) (outputF fl) -> opened (files st') (outputF fl')).
Proof.
  assert (Hsame : forall st0 : State,
    (exists evs, trace st0 = trace st0 ++ evs /\ Forall (fun x => parse_event x = true) evs) /\
    stdout st0 = stdout st0 /\
    (forall p, kept_or_created (files st0) (files st0) p)).
  { intros st0. split; [exists []; split; [by rewrite app_nil_r|constructor]|].
    split; [done|]. intros p; by left. }
  destruct a; cbn [flag_set]; try destruct (in_int_range n);
    unfold typesVal_Set, buildTagsVal_Set; try rewrite skipsVal_Set_spec;
    try (intros [= <- <- <-]; destruct (Hsame st) as (H1 & H2 & H3);
         split; [done|]; split; [done|]; split; [done|]; simpl; done).
  destruct (outputVal_Set (outputF fl) v st) as [[o e0] st0] eqn:Eo.
  intros [= <- <- <-].
  destruct (outputVal_Set_spec _ _ _ _ _ _ Eo) as (H1 & H2 & H3 & H4).
  split; [done|]. split; [done|]. split; [done|].
  intros He Hop. simpl. by apply H4.
Qed.

Lemma flag_Parse_state args : forall fl st r st',
  flag_Parse args fl st = (r, st') ->
  (exists evs, trace st' = trace st ++ evs /\ Forall (fun x => parse_event x = true) evs) /\
  stdout st' = stdout st /\
  (forall p, kept_or_created (files st) (files st') p) /\
  (forall fl', r = inl fl' -> opened (files st) (outputF fl) -> opened (files st') (outputF fl')).
Proof.
  induction args as [|a args IH]; intros fl st r st'; simpl.
  - intros [= <- <-]. split; [exists []; split; [by rewrite app_nil_r|constructor]|].
    split; [done|]. split; [intros p; by left|]. by intros fl' [= <-].
  - destruct (flag_set a fl st) as [[fl1 e] st1] eqn:Es.
    destruct (flag_set_state _ _ _ _ _ _ Es) as ((evs1 & Ht1 & Hf1) & Hs1 & Hk1 & Ho1).
    destruct e as [err|].
    + intros [= <- <-]. split; [by exists evs1|]. split; [done|]. split; [done|].
      intros fl' [=].
    + intros Hp. destruct (IH _ _ _ _ Hp) as ((evs2 & Ht2 & Hf2) & Hs2 & Hk2 & Ho2).
      split.
      { exists (evs1 ++ evs2). split; [by rewrite Ht2, Ht1, app_assoc|by apply Forall_app]. }
      split; [congruence|]. split.
      { intros p. eapply kept_or_created_trans; eauto. }
      intros fl' Hr Hop. apply (Ho2 fl' Hr). by apply Ho1.
Qed.


Lemma last_or_cons {A} (d x : A) l : last_or d (x :: l) = last_or x l.
Proof.
  unfold last_or. destruct l as [|y l]; [done|].
  change (last (x :: y :: l)) with (last (y :: l)).
  destruct (last (y :: l)) eqn:E; [done|]. by apply last_None in E.
Qed.


(** The flag variables after a successful parse, field by field. *)
Lemma flag_Parse_fields args : forall fl st fl' st',
  flag_Parse args fl st = (inl fl', st') ->
  typesF fl' = typesF fl ++ type_args args /\
  skipsF fl' = skipsF fl ++ map skip_set_of (skip_args args) /\
  buildTagsF fl' = buildTagsF fl ++ tags_args args /\
  file (outputF fl') = last_or (file (outputF fl)) (map (fun v => os_Handle <$> names_file v) (o_args args)) /\
  allowedCopyToAnotherStructF fl' = last_or (allowedCopyToAnotherStructF fl) (another_struct_args args) /\
  pointerReceiverF fl' = last_or (pointerReceiverF fl) (pointer_receiver_args args).
Proof.
  induction args as [|a args IH]; intros fl st fl' st'; simpl.
  - intros [= <- <-]. rewrite !app_nil_r. done.
  - destruct (flag_set a fl st) as [[fl1 e] st1] eqn:Es.
    destruct e as [err|]; [intros [=]|]. intros Hp.
    destruct (IH _ _ _ _ Hp) as (Ht & Hs & Hb & Ho & Ha & Hr).
    rewrite Ht, Hs, Hb, Ho, Ha, Hr. clear IH Hp Ht Hs Hb Ho Ha Hr.
    unfold type_args, skip_args, tags_args, o_args, another_struct_args,
      pointer_receiver_args.
    destruct a; cbn [flag_set] in Es; try destruct (in_int_range n);
      try rewrite skipsVal_Set_spec in Es;
      unfold typesVal_Set, buildTagsVal_Set in Es; cbn [omap];
      try (simplify_eq; simpl; done).
    + simplify_eq; simpl. by rewrite last_or_cons.
    + simplify_eq; simpl. by rewrite last_or_cons.
    + simplify_eq; simpl. by rewrite <- app_assoc.
    + simplify_eq; simpl. by rewrite <- app_assoc.
    + destruct (outputVal_Set (outputF fl) v st) as [[o e0] st0] eqn:Eo.
      simplify_eq; simpl.
      destruct (outputVal_Set_spec _ _ _ _ _ _ Eo) as (_ & _ & _ & H4).
      destruct (H4 eq_refl) as [Hf _]. rewrite last_or_cons. by rewrite Hf.
    + simplify_eq; simpl. by rewrite <- app_assoc.
Qed.

Lemma new_events_app st st' evs :
  trace st' = trace st ++ evs -> new_events st st' = evs.
Proof. unfold new_events. intros ->. by rewrite drop_app_length. Qed.

Lemma last_or_map_handle (l : list string) :
  last_or None (map (fun v => os_Handle <$> names_file v) l)
  = os_Handle <$> (match last l with Some v => names_file v | None => None end).
Proof.
  unfold last_or.
  induction l as [|a [|b l] IH]; [done| |].
  - simpl. by destruct (names_file a).
  - exact IH.
Qed.

(** After a successful parse from the initial flag values. *)
Lemma flag_Parse_initial args st fl st1 :
  flag_Parse args initial_flags st = (inl fl, st1) ->
  typesF fl = type_args args /\
  skipsF fl = map skip_set_of (skip_args args) /\
  buildTagsF fl = tags_args args /\
  file (outputF fl) = os_Handle <$> output_path args /\
  allowedCopyToAnotherStructF fl = requests_destination args /\
  pointerReceiverF fl = requests_pointer_receiver args /\
  opened (files st1) (outputF fl).
Proof.
  intros Hp. destruct (flag_Parse_fields _ _ _ _ _ Hp) as (Ht & Hs & Hb & Ho & Ha & Hr).
  destruct (flag_Parse_state _ _ _ _ _ Hp) as (_ & _ & _ & Hop).
  simpl in *. rewrite last_or_map_handle in Ho.
  repeat split; try done.
  apply (Hop fl eq_refl). intros p [=].
Qed.

Lemma outputVal_Open_parsed f st op :
  file f = os_Handle <$> op ->
  match op with
  | None =>
      outputVal_Open f st = (mkOutputVal (Some os_Stdout) (name f), inl os_Stdout, st)
  | Some p =>
      match files st !! p with
      | Some (Regular d) =>
          outputVal_Open f st
          = (f, inl (os_Handle p),
             set_files (<[p := Regular ""]> (files st)) (log (EvTruncate p) st))
      | _ =>
          outputVal_Open f st
          = (f, inr (LibError ("truncate " +:+ p)), log (EvTruncate p) st)
      end
  end.
Proof.
  intros Hf. unfold outputVal_Open. rewrite Hf.
  destruct op as [p|]; simpl; [|done].
  destruct (files st !! p) as [[d| |]|]; done.
Qed.

Lemma string_drop_empty n : string_drop n "" = "".
Proof. by destruct n. Qed.

Lemma string_app_empty_r (s : string) : s +:+ "" = s.
Proof.
  induction s as [|c s IH]; [reflexivity|].
  change (String c (s +:+ "") = String c s). by rewrite IH.
Qed.


(** A name that the package does not declare ends generation with an
    error, whatever else is requested. *)
Lemma generateFrom_absent delim wildcard order g pkg bad types : forall i,
  In bad types -> decls pkg !! bad = None ->
  exists e, generateFrom delim wildcard order g pkg i types = inl e.
Proof.
  induction types as [|t types IH]; intros i Hin Hbad; [done|].
  simpl. destruct (generateType delim wildcard order g pkg i t) as [e|p] eqn:Et;
    [by exists e|]. simpl.
  destruct Hin as [->|Hin].
  - unfold generateType, resolve in Et. rewrite Hbad in Et. done.
  - destruct (IH (S i) Hin Hbad) as [e ->]. by exists e.
Qed.

(* ===================================================================== *)
(** ** Lemmas: the step budget of the walk *)
(* ===================================================================== *)

Lemma res_map_fuel {A B : Type} (f : A -> B) (r : Res A) :
  r <> OutOfFuel -> res_map f r <> OutOfFuel.
Proof. by destruct r. Qed.

Lemma res_mapM_fuel {A B : Type} (f : A -> Res B) (l : list A) :
  (forall a, In a l -> f a <> OutOfFuel) -> res_mapM f l <> OutOfFuel.
Proof.
  induction l as [|a l IH]; intros Hf; [done|]. simpl.
  pose proof (Hf a (or_introl eq_refl)) as Ha.
  destruct (f a) as [b| |]; [|done|done].
  apply res_map_fuel, IH. intros a' Ha'. apply Hf. by right.
Qed.

Lemma res_mapM_ext {A B : Type} (f g : A -> Res B) (l : list A) :
  res_mapM f l <> OutOfFuel ->
  (forall a, In a l -> f a <> OutOfFuel -> g a = f a) ->
  res_mapM g l = res_mapM f l.
Proof.
  induction l as [|a l IH]; intros Hne Hfg; [done|]. simpl in *.
  destruct (f a) as [b| |] eqn:Ea; [| |done].
  - rewrite (Hfg a (or_introl eq_refl)), Ea by (by rewrite ?Ea).
    rewrite IH; [done| |].
    + by destruct (res_mapM f l).
    + intros a' Ha'. apply Hfg. by right.
  - by rewrite (Hfg a (or_introl eq_refl)), Ea by (by rewrite ?Ea).
Qed.

Lemma res_map_noErr {A B : Type} (f : A -> B) (r : Res A) :
  (forall e, r <> Err e) -> forall e, res_map f r <> Err e.
Proof. destruct r; [done| |done]. intros H e0. by destruct (H e). Qed.

Lemma res_mapM_noErr {A B : Type} (f : A -> Res B) (l : list A) :
  (forall a, In a l -> forall e, f a <> Err e) -> forall e, res_mapM f l <> Err e.
Proof.
  induction l as [|a l IH]; intros Hf e; [done|]. simpl.
  pose proof (Hf a (or_introl eq_refl)) as Ha.
  destruct (f a) as [b|e0|]; [|by destruct (Ha e0)|done].
  apply res_map_noErr. apply IH. intros a' Ha'. apply Hf. by right.
Qed.

(** Ancestors are distinct shapes of the arena, so there are at most as
    many of them as the arena has shapes. *)
Lemma ancestors_bounded (n : nat) (anc : list nat) :
  NoDup anc -> (forall a, a ∈ anc -> a < n) -> length anc <= n.
Proof.
  intros Hnd Hlt. trans (length (seq 0 n)); [|by rewrite length_seq].
  apply submseteq_length, NoDup_submseteq; [done|].
  intros a Ha. apply elem_of_seq. specialize (Hlt a Ha). lia.
Qed.

Section WalkerFacts.
  Variable shapes : list TypeShape.
  Variable skipSet : list (list Segment).
  Variable maxDepth : Z.

  Local Abbreviation walk_fuel' := (walk_fuel shapes skipSet maxDepth).

  (** The budget suffices whenever it exceeds the number of shapes that are
      not yet on the ancestor stack. *)
Lemma walk_fuel_enough fuel : forall path anc depth id,
    NoDup anc -> (forall a, a ∈ anc -> a < length shapes) ->
    length shapes < fuel + length anc ->
    walk_fuel' fuel path anc depth id <> OutOfFuel.
  Proof.
    induction fuel as [|fuel IH]; intros path anc depth id Hnd Hlt Hfuel.
    - pose proof (ancestors_bounded _ _ Hnd Hlt). lia.
    - simpl. destruct (selector_matches skipSet path); [done|].
      case_bool_decide as Hin; [done|].
      destruct (shapes !! id) as [shape|] eqn:Hid; [|done].
      destruct (depth_reached maxDepth depth && needs_allocation shape)%bool; [done|].
      assert (Hnd' : NoDup (id :: anc)) by (by constructor).
      assert (Hlt' : forall a, a ∈ id :: anc -> a < length shapes).
      { intros a [->|Ha]%elem_of_cons; [by eapply lookup_lt_Some|by apply Hlt]. }
      assert (Hfuel' : length shapes < fuel + length (id :: anc)) by (simpl; lia).
      destruct shape; try done; try (apply res_map_fuel); try (by apply IH).
      apply res_mapM_fuel. intros f _. by apply IH.
  Qed.

  (** More budget does not change a result. *)
Lemma walk_fuel_S fuel : forall path anc depth id,
    walk_fuel' fuel path anc depth id <> OutOfFuel ->
    walk_fuel' (S fuel) path anc depth id = walk_fuel' fuel path anc depth id.
  Proof.
    induction fuel as [|fuel IH]; intros path anc depth id Hne; [done|].
    pose (fuel1 := S fuel).
    change (walk_fuel' (S fuel1) path anc depth id = walk_fuel' (S fuel) path anc depth id).
    assert (IH' : forall p a d i, walk_fuel' fuel p a d i <> OutOfFuel ->
                    walk_fuel' fuel1 p a d i = walk_fuel' fuel p a d i) by exact IH.
    clearbody fuel1. clear IH. simpl in Hne |- *.
    destruct (selector_matches skipSet path); [done|].
    destruct (bool_decide (id ∈ anc)); [done|].
    destruct (shapes !! id) as [shape|]; [|done].
    destruct (depth_reached maxDepth depth && needs_allocation shape)%bool; [done|].
    destruct shape; try done;
      try (rewrite IH'; [done|]; intros H; by rewrite H in Hne).
    f_equal. apply res_mapM_ext.
    + intros H. by rewrite H in Hne.
    + intros f _ Hf. by apply IH'.
  Qed.

  (** The walk itself fails only on a shape the arena does not hold. *)
Lemma walk_fuel_Err fuel : forall path anc depth id e,
    walk_fuel' fuel path anc depth id = Err e ->
    exists missing, e = UnresolvedTypeError missing.
  Proof.
    induction fuel as [|fuel IH]; intros path anc depth id e; [done|].
    simpl. destruct (selector_matches skipSet path); [done|].
    destruct (bool_decide (id ∈ anc)); [done|].
    destruct (shapes !! id) as [shape|]; [|intros [= <-]; by eexists].
    destruct (depth_reached maxDepth depth && needs_allocation shape)%bool; [done|].
    destruct shape; try done; try (by apply IH);
      try (match goal with
           | |- res_map _ (walk_fuel _ _ _ ?f ?p ?a ?d ?i) = _ -> _ =>
               destruct (walk_fuel shapes skipSet maxDepth f p a d i) eqn:Ew;
               [done|intros [= <-]; by eapply IH|done]
           end).
    set (g := fun f : Field => walk_fuel' fuel (path ++ [SegField (fieldName f)])
                                 (id :: anc) (S depth) (fieldShape f)).
    assert (Hg : forall f e0, g f = Err e0 -> exists missing, e0 = UnresolvedTypeError missing).
    { intros f e0. apply IH. }
    clearbody g. induction fields as [|f fields IHf]; [done|]. simpl.
    destruct (g f) as [b|e0|] eqn:Eg; [|intros [= <-]; by eapply Hg|done].
    destruct (res_mapM g fields) as [bs|e1|]; [done| |done].
    simpl. intros [= <-]. by apply IHf.
  Qed.

  (** In a closed arena the walk meets no shape that the arena does not
      hold. *)
Lemma walk_fuel_closed fuel : forall path anc depth id e,
    arena_closed shapes -> id < length shapes ->
    walk_fuel' fuel path anc depth id <> Err e.
  Proof.
    induction fuel as [|fuel IH]; intros path anc depth id e Hc Hid; [done|].
    simpl. destruct (selector_matches skipSet path); [done|].
    destruct (bool_decide (id ∈ anc)); [done|].
    destruct (lookup_lt_is_Some_2 shapes id Hid) as [shape Hs]. rewrite Hs.
    destruct (depth_reached maxDepth depth && needs_allocation shape)%bool; [done|].
    pose proof (Hc id shape) as Hrefs. specialize (fun r => Hrefs r Hs).
    destruct shape; simpl in Hrefs; try done;
      try (apply res_map_noErr; intros e0); try (apply IH; [done|]; apply Hrefs; tauto).
    apply res_mapM_noErr. intros f Hf e1. apply IH; [done|].
    apply Hrefs. by apply in_map.
  Qed.
End WalkerFacts.

(* ===================================================================== *)
(** ** Properties of the walk *)
(* ===================================================================== *)

(** C4.  For every arena, self-referential or not, every skip set and every
    [maxDepth], zero included, the walk ends within its step budget: more
    budget gives the same result, and the safety net of the internal error
    is never reached; when every shape the arena refers to is in the arena,
    the walk of any of its shapes delivers a plan.  A shape already on the
    ancestor stack, at a path that no selector matches, is emitted as
    [CycleGuard] whatever the depth and whatever [maxDepth]: the depth
    bound is considered only for a shape that is not on the stack. *)
Theorem C4_walk_terminates shapes skips md :
  (forall root, walk_fuel shapes skips md (S (length shapes)) [] [] 0 root <> OutOfFuel) /\
  (forall root more,
     walk_fuel shapes skips md (S (length shapes) + more) [] [] 0 root
     = walk_fuel shapes skips md (S (length shapes)) [] [] 0 root) /\
  (forall root, walk shapes skips md root <> inl InternalError) /\
  (arena_closed shapes ->
   forall root, root < length shapes -> exists plan, walk shapes skips md root = inr plan) /\
  (forall fuel path anc depth id,
     id ∈ anc ->
     selector_matches skips path = false ->
     walk_fuel shapes skips md (S fuel) path anc depth id = Ok (CycleGuard id)) /\
  (forall fuel path anc depth id shape,
     id ∉ anc ->
     selector_matches skips path = false ->
     shapes !! id = Some shape ->
     depth_reached md depth = true -> needs_allocation shape = true ->
     walk_fuel shapes skips md (S fuel) path anc depth id = Ok DirectAssign).
Proof.
  assert (Hterm : forall root,
    walk_fuel shapes skips md (S (length shapes)) [] [] 0 root <> OutOfFuel).
  { intros root. apply walk_fuel_enough; [constructor| |simpl; lia].
    intros a Ha. by apply elem_of_nil in Ha. }
  split; [exact Hterm|]. split.
  { intros root more. induction more as [|more IH]; [by rewrite Nat.add_0_r|].
    rewrite Nat.add_succ_r, walk_fuel_S; [done|]. rewrite IH. apply Hterm. }
  split.
  { intros root. unfold walk.
    destruct (walk_fuel shapes skips md (S (length shapes)) [] [] 0 root) as [p|e|] eqn:Ew.
    - done.
    - destruct (walk_fuel_Err _ _ _ _ _ _ _ _ _ Ew) as [missing ->]. done.
    - by destruct (Hterm root). }
  split.
  { intros Hc root Hroot. unfold walk.
    destruct (walk_fuel shapes skips md (S (length shapes)) [] [] 0 root) as [p|e|] eqn:Ew.
    - by exists p.
    - by destruct (walk_fuel_closed shapes skips md (S (length shapes)) [] [] 0 root e Hc Hroot).
    - by destruct (Hterm root). }
  split.
  { intros fuel path anc depth id Hin Hsel. simpl.
    rewrite Hsel. by rewrite bool_decide_eq_true_2. }
  intros fuel path anc depth id shape Hin Hsel Hid Hd Hn. simpl.
  rewrite Hsel, bool_decide_eq_false_2 by done. by rewrite Hid, Hd, Hn.
Qed.

(* ===================================================================== *)
(** ** Properties of the driver *)
(* ===================================================================== *)

Section Properties.
  Variable packages_Load : gmap string node -> string -> string + list Package.
  Variable delim : ascii.
  Variable wildcard : string.
  Variable order : RangeOrder.
  Variable emit : Generator -> Package -> list (string * CopyPlanNode) -> string.

  Local Abbreviation main' := (main packages_Load delim wildcard order emit).
  Local Abbreviation run' := (run packages_Load delim wildcard order emit).

(** C10 (as amended).  When no [-type] flag is given, or the first type name
    is the empty string, the driver aborts, with the message of the type
    check or earlier with the usage error of a [-o] file that cannot be
    opened, before the generator is constructed, before any package is
    loaded and before the output is truncated or written: the only outside
    calls are those of flag parsing, which opens each file named by [-o] and
    creates it when it is absent.  An empty type name after a non-empty first
    one is not rejected by the type check. *)
Theorem C10_no_type_aborts_before_load args pos st o st' :
  main' args pos st = (o, st') ->
  ((type_args args = [] \/ head (type_args args) = Some "") ->
     (o = Fatalln "no type given" None \/ exists err, o = ExitUsage err) /\
     Forall (fun e => parse_event e = true) (new_events st st') /\
     stdout st' = stdout st /\
     (forall p, kept_or_created (files st) (files st') p)) /\
  (forall t rest, type_args args = t :: rest -> t <> "" ->
     o <> Fatalln "no type given" None).
Proof.
  unfold main. destruct (flag_Parse args initial_flags st) as [[fl|err] st1] eqn:Hp;
    destruct (flag_Parse_state _ _ _ _ _ Hp) as ((pre & Ht & Hpre) & Hs & Hk & _).
  - destruct (flag_Parse_initial _ _ _ _ Hp) as (Hty & _). rewrite Hty.
    intros Hm. split.
    + intros Hno.
      assert (Hc : (Nat.eqb (length (type_args args)) 0
                    || String.eqb (nth 0 (type_args args) "") "")%bool = true).
      { destruct Hno as [->|Hh]; [done|].
        destruct (type_args args) as [|t ts]; [done|]. simpl in Hh.
        injection Hh as ->. done. }
      rewrite Hc in Hm. injection Hm as <- <-.
      split; [by left|]. split; [by rewrite (new_events_app _ _ _ Ht)|]. done.
    + intros t rest Ha Hne. rewrite Ha in Hm. simpl in Hm.
      destruct (String.eqb_spec t "") as [->|_]; [done|].
      repeat case_match; simplify_eq; done.
  - intros [= <- <-]. split.
    + intros _. split; [right; by exists err|].
      split; [by rewrite (new_events_app _ _ _ Ht)|]. done.
    + done.
Qed.
(** The events of a run that succeeds. *)
Lemma main_success args pos st st' :
  main' args pos st = (Exit0, st') ->
  exists text pre path,
    Forall (fun e => parse_event e = true) pre /\
    new_events st st'
    = pre ++ [EvNewGenerator]
          ++ match output_path args with Some p => [EvTruncate p] | None => [] end
          ++ [EvLoad path; EvGenerate (type_args args);
              EvWrite (output_writer args) text; EvClose (output_writer args)].
Proof.
  unfold main.
  destruct (flag_Parse args initial_flags st) as [[fl|err] st1] eqn:Hp; [|done].
  destruct (flag_Parse_state _ _ _ _ _ Hp) as ((pre & Ht & Hpre) & Hs & Hk & _).
  destruct (flag_Parse_initial _ _ _ _ Hp) as (Hty & _ & _ & Hfile & _ & _ & Hop).
  case_match; [done|]. case_match; [done|].
  simpl. destruct (NewGenerator _ _ _ _ _ _ _ _ _) as [ce|g]; [done|].
  pose proof (outputVal_Open_parsed _ (log EvNewGenerator st1) _ Hfile) as Hopen.
  unfold output_writer. destruct (output_path args) as [p|] eqn:Hout.
  - simpl in Hopen. destruct (Hop p Hfile) as (n & Hn & Hnu).
    rewrite Hn in Hopen. destruct n as [d| |]; [| |done]; rewrite Hopen; [|done].
    unfold run, load. simpl.
    destruct (packages_Load _ _) as [lerr|[|pkg rest]]; [done|done|].
    unfold Generator_Generate.
    destruct (generateFrom _ _ _ _ _ _ _) as [e|plans]; [done|].
    intros [= <-]. exists (emit g pkg plans), pre, (nth 0 pos "").
    split; [done|].
    apply new_events_app. simpl. rewrite lookup_insert_eq. simpl.
    rewrite Ht, Hty, <- !app_assoc. reflexivity.
  - simpl in Hopen. rewrite Hopen. unfold run, load. simpl.
    destruct (packages_Load _ _) as [lerr|[|pkg rest]]; [done|done|].
    unfold Generator_Generate.
    destruct (generateFrom _ _ _ _ _ _ _) as [e|plans]; [done|].
    intros [= <-]. exists (emit g pkg plans), pre, (nth 0 pos "").
    split; [done|].
    apply new_events_app. simpl. rewrite Ht, Hty, <- !app_assoc. reflexivity.
Qed.


(** C2.  When the command line asks for the destination parameter
    ([-another-struct]) with a value receiver, every run fails without a
    single call of the package loader: nothing happens beyond flag parsing
    and the call of the constructor, and a run that passes flag parsing and
    the two argument checks of [main] ends with the configuration error of
    the constructor. *)
Theorem C2_destination_needs_pointer_receiver args pos st o st' :
  requests_destination args = true ->
  requests_pointer_receiver args = false ->
  main' args pos st = (o, st') ->
  o <> Exit0 /\
  Forall (fun e => parse_event e = true \/ e = EvNewGenerator) (new_events st st') /\
  Forall (fun e => is_load e = false) (new_events st st') /\
  (forall t ts path, type_args args = t :: ts -> t <> "" -> pos = [path] ->
     (forall err, o <> ExitUsage err) ->
     o = Rejected ConfigurationError).
Proof.
  intros Hd Hr. unfold main.
  destruct (flag_Parse args initial_flags st) as [[fl|err] st1] eqn:Hp;
    destruct (flag_Parse_state _ _ _ _ _ Hp) as ((pre & Ht & Hpre) & Hs & Hk & _).
  2:{ intros [= <- <-]. rewrite (new_events_app _ _ _ Ht). split; [done|].
      split; [eapply Forall_impl; [exact Hpre|]; by left|].
      split; [eapply Forall_impl; [exact Hpre|]; by intros []|].
      intros t ts path _ _ _ Hne. by destruct (Hne err). }
  destruct (flag_Parse_initial _ _ _ _ Hp) as (Hty & _ & _ & _ & Ha & Hpr & _).
  assert (Hpre1 : Forall (fun e => parse_event e = true \/ e = EvNewGenerator) pre).
  { eapply Forall_impl; [exact Hpre|]; by left. }
  assert (Hpre2 : Forall (fun e => is_load e = false) pre).
  { eapply Forall_impl; [exact Hpre|]; by intros []. }
  unfold NewGenerator. rewrite Ha, Hpr, Hd, Hr, Hty. simpl.
  case_match eqn:Hc1.
  { intros [= <- <-]. rewrite (new_events_app _ _ _ Ht). repeat split; try done.
    intros t ts path Hts Hne _ _. rewrite Hts in Hc1. simpl in Hc1.
    by destruct (String.eqb_spec t "") . }
  case_match eqn:Hc2.
  { intros [= <- <-]. rewrite (new_events_app _ _ _ Ht). repeat split; try done.
    intros t ts path _ _ -> _. done. }
  intros [= <- <-]. simpl.
  erewrite new_events_app; [|simpl; rewrite Ht, <- !app_assoc; reflexivity].
  split; [done|]. split; [apply Forall_app; split; [done|]; repeat constructor; by right|].
  split; [apply Forall_app; split; [done|]; by repeat constructor|]. done.
Qed.

Lemma loading_package_not_no_package err :
  "loading package: " +:+ err <> "no package found".
Proof. done. Qed.


(** The events of a run: those of flag parsing, then an initial segment of
    the fixed sequence construct, truncate, load, generate, write, close. *)
Lemma main_trace args pos st o st' :
  main' args pos st = (o, st') ->
  exists pre post text path,
    new_events st st' = pre ++ post /\
    Forall (fun e => parse_event e = true) pre /\
    post `prefix_of`
      [EvNewGenerator]
        ++ match output_path args with Some p => [EvTruncate p] | None => [] end
        ++ [EvLoad path; EvGenerate (type_args args);
            EvWrite (output_writer args) text; EvClose (output_writer args)].
Proof.
  unfold main.
  destruct (flag_Parse args initial_flags st) as [[fl|err] st1] eqn:Hp;
    destruct (flag_Parse_state _ _ _ _ _ Hp) as ((pre & Ht & Hpre) & Hs & Hk & _).
  2:{ intros [= <- <-]. exists pre, [], "", "". rewrite app_nil_r.
      split; [by apply new_events_app|]. split; [done|]. apply prefix_nil. }
  destruct (flag_Parse_initial _ _ _ _ Hp) as (Hty & _ & _ & Hfile & _ & _ & Hop).
  case_match.
  { intros [= <- <-]. exists pre, [], "", "". rewrite app_nil_r.
    split; [by apply new_events_app|]. split; [done|]. apply prefix_nil. }
  case_match.
  { intros [= <- <-]. exists pre, [], "", "". rewrite app_nil_r.
    split; [by apply new_events_app|]. split; [done|]. apply prefix_nil. }
  simpl. destruct (NewGenerator _ _ _ _ _ _ _ _ _) as [ce|g].
  { intros [= <- <-]. exists pre, [EvNewGenerator], "", "".
    split; [apply new_events_app; simpl; by rewrite Ht, <- ?app_assoc|]. split; [done|].
    by eexists. }
  pose proof (outputVal_Open_parsed _ (log EvNewGenerator st1) _ Hfile) as Hopen.
  unfold output_writer. destruct (output_path args) as [p|] eqn:Hout.
  - simpl in Hopen. destruct (Hop p Hfile) as (n & Hn & Hnu).
    rewrite Hn in Hopen. destruct n as [d| |]; [| |done]; rewrite Hopen.
    + unfold run, load. simpl.
      destruct (packages_Load _ _) as [lerr|[|pkg rest]].
      * intros [= <- <-]. exists pre, [EvNewGenerator; EvTruncate p; EvLoad (nth 0 pos "")], "", (nth 0 pos "").
        split; [apply new_events_app; simpl; by rewrite Ht, <- !app_assoc|].
        split; [done|]. by eexists.
      * intros [= <- <-]. exists pre, [EvNewGenerator; EvTruncate p; EvLoad (nth 0 pos "")], "", (nth 0 pos "").
        split; [apply new_events_app; simpl; by rewrite Ht, <- !app_assoc|].
        split; [done|]. by eexists.
      * unfold Generator_Generate.
        destruct (generateFrom _ _ _ _ _ _ _) as [e|plans].
        -- intros [= <- <-].
           exists pre, [EvNewGenerator; EvTruncate p; EvLoad (nth 0 pos ""); EvGenerate (type_args args)], "", (nth 0 pos "").
           split; [apply new_events_app; simpl; by rewrite Ht, Hty, <- !app_assoc|].
           split; [done|]. by eexists.
        -- intros [= <- <-].
           exists pre, [EvNewGenerator; EvTruncate p; EvLoad (nth 0 pos "");
                        EvGenerate (type_args args);
                        EvWrite (os_Handle p) (emit g pkg plans); EvClose (os_Handle p)],
             (emit g pkg plans), (nth 0 pos "").
           split; [|split; [done|reflexivity]].
           apply new_events_app. simpl. rewrite lookup_insert_eq. simpl.
           by rewrite Ht, Hty, <- !app_assoc.
    + intros [= <- <-]. exists pre, [EvNewGenerator; EvTruncate p], "", "".
      split; [apply new_events_app; simpl; by rewrite Ht, <- !app_assoc|].
      split; [done|]. by eexists.
  - simpl in Hopen. rewrite Hopen. unfold run, load. simpl.
    destruct (packages_Load _ _) as [lerr|[|pkg rest]].
    * intros [= <- <-]. exists pre, [EvNewGenerator; EvLoad (nth 0 pos "")], "", (nth 0 pos "").
      split; [apply new_events_app; simpl; by rewrite Ht, <- !app_assoc|].
      split; [done|]. by eexists.
    * intros [= <- <-]. exists pre, [EvNewGenerator; EvLoad (nth 0 pos "")], "", (nth 0 pos "").
      split; [apply new_events_app; simpl; by rewrite Ht, <- !app_assoc|].
      split; [done|]. by eexists.
    * unfold Generator_Generate.
      destruct (generateFrom _ _ _ _ _ _ _) as [e|plans].
      -- intros [= <- <-].
         exists pre, [EvNewGenerator; EvLoad (nth 0 pos ""); EvGenerate (type_args args)], "", (nth 0 pos "").
         split; [apply new_events_app; simpl; by rewrite Ht, Hty, <- !app_assoc|].
         split; [done|]. by eexists.
      -- intros [= <- <-].
         exists pre, [EvNewGenerator; EvLoad (nth 0 pos ""); EvGenerate (type_args args);
                      EvWrite os_Stdout (emit g pkg plans); EvClose os_Stdout],
           (emit g pkg plans), (nth 0 pos "").
         split; [|split; [done|reflexivity]].
         apply new_events_app. simpl. by rewrite Ht, Hty, <- !app_assoc.
Qed.

Lemma generateFrom_names g pkg types : forall i plans,
  generateFrom delim wildcard order g pkg i types = inr plans ->
  map fst plans = types.
Proof.
  induction types as [|t types IH]; intros i plans; simpl.
  - by intros [= <-].
  - destruct (generateType delim wildcard order g pkg i t) as [e|p] eqn:Et; [done|].
    simpl. destruct (generateFrom delim wildcard order g pkg (S i) types) as [e|ps] eqn:Ef;
      [done|]. simpl. intros [= <-]. simpl. rewrite (IH _ _ Ef). f_equal.
    unfold generateType in Et.
    destruct (resolve pkg t) as [e|id]; [done|]. simpl in Et.
    destruct (compile _ _ _) as [e|sels]; [done|]. simpl in Et.
    destruct (walk _ _ _ _) as [e|plan]; [done|]. simpl in Et.
    by injection Et as <-.
Qed.

(** C9.  Each [-type] occurrence appends exactly one name: after parsing,
    the requested types are the [-type] arguments in command-line order; the
    generator is only ever invoked with exactly that list (and is invoked
    with it in every run that succeeds); and the generator produces one plan
    per requested name, in the order of the names. *)
Theorem C9_types_in_order args pos st o st' :
  main' args pos st = (o, st') ->
  (forall fl st1, flag_Parse args initial_flags st = (inl fl, st1) ->
     typesF fl = type_args args) /\
  (forall ts, In (EvGenerate ts) (new_events st st') -> ts = type_args args) /\
  (o = Exit0 -> In (EvGenerate (type_args args)) (new_events st st')) /\
  (forall g pkg i types plans,
     generateFrom delim wildcard order g pkg i types = inr plans ->
     map fst plans = types).
Proof.
  intros Hm. split.
  { intros fl st1 Hp. by destruct (flag_Parse_initial _ _ _ _ Hp) as (Hty & _). }
  split.
  { intros ts Hin.
    destruct (main_trace _ _ _ _ _ Hm) as (pre & post & text & path & Hev & Hpre & [k Hk]).
    rewrite Hev in Hin.
    apply in_app_or in Hin. destruct Hin as [Hin|Hin].
    - rewrite Forall_forall in Hpre. apply list_elem_of_In, Hpre in Hin. done.
    - assert (Hin' : In (EvGenerate ts) (post ++ k)) by (apply in_or_app; by left).
      rewrite <- Hk in Hin'. simpl in Hin'.
      destruct Hin' as [?|Hin']; [done|].
      apply in_app_or in Hin'. destruct Hin' as [Hin'|Hin'].
      + destruct (output_path args); simpl in Hin'; [|done].
        destruct Hin' as [?|?]; done.
      + simpl in Hin'. destruct Hin' as [?|[?|[?|[?|?]]]]; try done. congruence. }
  split.
  { intros ->. destruct (main_success _ _ _ _ Hm) as (text & pre & path & _ & ->).
    apply in_or_app. right. simpl. right. apply in_or_app. right. simpl. right. by left. }
  intros g pkg i types plans. apply generateFrom_names.
Qed.

Lemma SkipLists_Get_map (vs : list string) i :
  SkipLists_Get (map skip_set_of vs) i
  = match vs !! i with
    | Some v => skip_set_of v
    | None => ∅
    end.
Proof.
  unfold SkipLists_Get.
  change (map skip_set_of vs) with (skip_set_of <$> vs).
  rewrite list_lookup_fmap. by destruct (vs !! i).
Qed.

End Properties.


(* ===================================================================== *)
(** ** Lemmas: splitting and joining at commas *)
(* ===================================================================== *)

Lemma string_app_assoc (a b c : string) : (a +:+ b) +:+ c = a +:+ (b +:+ c).
Proof.
  induction a as [|x a IH]; [reflexivity|].
  change (String x ((a +:+ b) +:+ c) = String x (a +:+ (b +:+ c))). by rewrite IH.
Qed.

Lemma strings_Split_nonempty s sep : strings_Split s sep <> [].
Proof.
  destruct s as [|c r]; [done|]. simpl.
  destruct (Ascii.eqb c sep); [done|]. by destruct (strings_Split r sep).
Qed.

Lemma strings_Split_free s sep p :
  In p (strings_Split s sep) -> string_mem sep p = false.
Proof.
  revert p. induction s as [|c r IH]; intros p; simpl.
  - by intros [<-|[]].
  - destruct (Ascii.eqb c sep) eqn:Ec.
    + intros [<-|Hp]; [done|by apply IH].
    + destruct (strings_Split r sep) as [|h t] eqn:Er.
      * intros [<-|[]]. simpl. by rewrite Ec.
      * intros [<-|Hp].
        -- simpl. rewrite Ec. apply IH. by left.
        -- apply IH. by right.
Qed.

Lemma strings_Join_cons_char c h t sep :
  strings_Join (String c h :: t) sep = String c (strings_Join (h :: t) sep).
Proof. by destruct t. Qed.

Lemma strings_Join_cons e l sep :
  l <> [] -> strings_Join (e :: l) sep = e +:+ sep +:+ strings_Join l sep.
Proof. by destruct l. Qed.

(** Joining the parts of a string gives the string back. *)
Lemma strings_Join_Split s :
  strings_Join (strings_Split s comma) "," = s.
Proof.
  induction s as [|c r IH]; [done|]. simpl.
  destruct (Ascii.eqb_spec c comma) as [->|Hc].
  - rewrite strings_Join_cons by apply strings_Split_nonempty. by rewrite IH.
  - destruct (strings_Split r comma) as [|h t] eqn:Er.
    + by destruct (strings_Split_nonempty r comma).
    + rewrite strings_Join_cons_char. by rewrite IH.
Qed.

Lemma strings_Split_single p sep :
  string_mem sep p = false -> strings_Split p sep = [p].
Proof.
  induction p as [|c p IH]; [done|]. simpl.
  destruct (Ascii.eqb c sep); [done|]. simpl. intros Hp. by rewrite IH.
Qed.

Lemma strings_Split_app p r sep :
  string_mem sep p = false ->
  strings_Split (p +:+ String sep r) sep = p :: strings_Split r sep.
Proof.
  induction p as [|c p IH]; intros Hp.
  - change ("" +:+ String sep r) with (String sep r). simpl.
    by destruct (Ascii.eqb_spec sep sep).
  - change (String c p +:+ String sep r) with (String c (p +:+ String sep r)).
    simpl in Hp |- *. destruct (Ascii.eqb c sep); [done|]. simpl in Hp.
    by rewrite IH.
Qed.

(** Splitting a joined list gives the parts of its elements. *)
Lemma strings_Split_Join (l : list string) :
  l <> [] ->
  strings_Split (strings_Join l ",") comma
  = concat (map (fun e => strings_Split e comma) l).
Proof.
  induction l as [|e l IH]; [done|]. intros _.
  destruct l as [|e' l].
  - simpl. by rewrite app_nil_r.
  - rewrite strings_Join_cons by done.
    change (map (fun e0 => strings_Split e0 comma) (e :: e' :: l))
      with (strings_Split e comma :: map (fun e0 => strings_Split e0 comma) (e' :: l)).
    rewrite concat_cons, <- IH by done.
    generalize (strings_Join (e' :: l) ","). intros r. clear IH.
    induction e as [|c e IHe].
    + change ("" +:+ "," +:+ r) with (String comma r). simpl.
      by destruct (Ascii.eqb_spec comma comma).
    + change (String c e +:+ "," +:+ r) with (String c (e +:+ "," +:+ r)).
      simpl. destruct (Ascii.eqb c comma); [by rewrite IHe|].
      rewrite IHe. destruct (strings_Split e comma) as [|h t] eqn:Ee; [|done].
      by destruct (strings_Split_nonempty e comma).
Qed.

Lemma strings_Join_app (l1 l2 : list string) sep :
  l1 <> [] -> l2 <> [] ->
  strings_Join (l1 ++ l2) sep = strings_Join l1 sep +:+ sep +:+ strings_Join l2 sep.
Proof.
  intros H1 H2. induction l1 as [|e l1 IH]; [done|].
  destruct l1 as [|e' l1].
  - simpl. by destruct l2.
  - change ((e :: e' :: l1) ++ l2) with (e :: ((e' :: l1) ++ l2)).
    rewrite !strings_Join_cons by done. rewrite IH by done.
    by rewrite !string_app_assoc.
Qed.

(** Joining joined groups is joining their concatenation, when no group is
    empty. *)
Lemma strings_Join_concat (ls : list (list string)) sep :
  Forall (fun l => l <> []) ls ->
  strings_Join (map (fun l => strings_Join l sep) ls) sep
  = strings_Join (concat ls) sep.
Proof.
  induction ls as [|l ls IH]; [done|]. intros Hne.
  apply Forall_cons in Hne as [Hl Hls]. destruct ls as [|l' ls].
  - simpl. by rewrite app_nil_r.
  - change (map (fun l0 => strings_Join l0 sep) (l :: l' :: ls))
      with (strings_Join l sep :: map (fun l0 => strings_Join l0 sep) (l' :: ls)).
    rewrite strings_Join_cons by done. rewrite IH by done.
    change (concat (l :: l' :: ls)) with (l ++ concat (l' :: ls)).
    symmetry. apply strings_Join_app; [done|].
    apply Forall_cons in Hls as [Hl' _]. simpl. by destruct l'.
Qed.

Lemma concat_map_Split_free (l : list string) :
  (forall t, In t l -> string_mem comma t = false) ->
  concat (map (fun e => strings_Split e comma) l) = l.
Proof.
  induction l as [|e l IH]; [done|]. intros Hfree. simpl.
  rewrite strings_Split_single by (apply Hfree; by left).
  simpl. f_equal. apply IH. intros t Ht. apply Hfree. by right.
Qed.

Lemma skip_set_of_elem v k : k ∈ skip_set_of v <-> In k (strings_Split v comma).
Proof. unfold skip_set_of. rewrite elem_of_list_to_set. apply list_elem_of_In. Qed.

Lemma skip_set_of_nonempty v : skip_set_of v <> ∅.
Proof.
  intros He. destruct (strings_Split v comma) as [|h t] eqn:Es.
  - by destruct (strings_Split_nonempty v comma).
  - assert (Hh : h ∈ skip_set_of v) by (apply skip_set_of_elem; rewrite Es; by left).
    rewrite He in Hh. by apply not_elem_of_empty in Hh.
Qed.

(* ===================================================================== *)
(** ** Properties of the flag values *)
(* ===================================================================== *)

(** X1.  [typesVal.String] and [buildTagsVal.String] list the entries joined
    by commas.  Splitting the text of a non-empty value at commas gives the
    comma-separated parts of its entries, so an entry that contains a comma
    prints exactly like several entries; the entries themselves come back
    when none of them contains a comma.  In the other direction the text of
    the parts of any string is that string. *)
Theorem X1_String_lists_entries_by_comma (f : list string) :
  f <> [] ->
  typesVal_String f = buildTagsVal_String f /\
  strings_Split (typesVal_String f) comma
  = concat (map (fun e => strings_Split e comma) f) /\
  buildTagsVal_String (concat (map (fun e => strings_Split e comma) f))
  = buildTagsVal_String f /\
  ((forall t, In t f -> string_mem comma t = false) ->
   strings_Split (typesVal_String f) comma = f) /\
  (forall s, typesVal_String (strings_Split s comma) = s).
Proof.
  intros Hf. unfold typesVal_String, buildTagsVal_String.
  split; [done|]. split; [by apply strings_Split_Join|]. split.
  { rewrite <- (strings_Split_Join f Hf). apply strings_Join_Split. }
  split.
  { intros Hfree. rewrite strings_Split_Join by done. by apply concat_map_Split_free. }
  intros s. apply strings_Join_Split.
Qed.

(** X2.  The set [skipsVal.Set] appends is never empty, not even for the
    empty argument, which gives the set of the empty selector; no key
    contains a comma; and the set does not depend on the order or the
    repetition of the parts of the argument. *)
Theorem X2_skipsVal_Set_keys (f : list (gset string)) (v : string) :
  skipsVal_Set f v = (f ++ [skip_set_of v], None) /\
  skip_set_of v <> ∅ /\
  (forall k, k ∈ skip_set_of v -> string_mem comma k = false) /\
  size (skip_set_of v) <= length (strings_Split v comma) /\
  (v = "" -> skip_set_of v = {[ "" ]}) /\
  (forall v', (forall k, In k (strings_Split v comma) <-> In k (strings_Split v' comma)) ->
     skipsVal_Set f v' = skipsVal_Set f v).
Proof.
  split; [apply skipsVal_Set_spec|]. split; [apply skip_set_of_nonempty|]. split.
  { intros k Hk. apply skip_set_of_elem in Hk. by eapply strings_Split_free. }
  split.
  { unfold skip_set_of. generalize (strings_Split v comma). intros l.
    induction l as [|a l IH].
    - by rewrite list_to_set_nil, size_empty.
    - rewrite list_to_set_cons, size_union_alt, size_singleton. simpl.
      assert (Hsub : size (list_to_set l ∖ {[a]} : gset string)
                     <= size (list_to_set l : gset string)).
      { apply subseteq_size. apply subseteq_difference_l. done. }
      lia. }
  split.
  { intros ->. unfold skip_set_of. simpl. apply set_eq. intros k.
    rewrite elem_of_union, elem_of_singleton, elem_of_empty. tauto. }
  intros v' Hsame. rewrite !skipsVal_Set_spec. do 3 f_equal.
  apply set_eq. intros k. rewrite !skip_set_of_elem. symmetry. apply Hsame.
Qed.

Lemma order_nonempty (order : RangeOrder) (m : gset string) :
  valid_order order -> m <> ∅ -> order m <> [].
Proof.
  intros Hv Hm He. specialize (Hv m). rewrite He in Hv.
  symmetry in Hv. apply Permutation_nil_r in Hv. apply elements_empty_inv in Hv.
  by apply leibniz_equiv in Hv.
Qed.

Lemma order_elem (order : RangeOrder) (m : gset string) k :
  valid_order order -> In k (order m) <-> k ∈ m.
Proof.
  intros Hv. rewrite <- list_elem_of_In, (Hv m). apply elem_of_elements.
Qed.

(** X3.  Printing a [skipsVal] and parsing the text again does not give the
    value back: [String] joins the keys of all the sets with commas, so that
    [Set] on the text of a value built from one or more [-skip] occurrences
    yields one single set, the union of them all, whatever order the keys
    are enumerated in. *)
Theorem X3_skipsVal_String_then_Set_merges (order : RangeOrder) (vs : list string) :
  valid_order order ->
  vs <> [] ->
  skipsVal_Set [] (skipsVal_String order (map skip_set_of vs))
  = ([⋃ (map skip_set_of vs)], None).
Proof.
  intros Hv Hvs. rewrite skipsVal_Set_spec. simpl. do 3 f_equal.
  set (f := map skip_set_of vs).
  assert (Hf : Forall (fun m : gset string =>
                m <> ∅ /\ forall k, k ∈ m -> string_mem comma k = false) f).
  { apply Forall_forall. intros m Hm. apply list_elem_of_In, in_map_iff in Hm.
    destruct Hm as (v & <- & _). split; [apply skip_set_of_nonempty|].
    intros k Hk. apply skip_set_of_elem in Hk. by eapply strings_Split_free. }
  assert (Hfne : f <> []) by (subst f; by destruct vs).
  clearbody f. unfold skipsVal_String.
  rewrite <- (map_map order (fun l => strings_Join l ",") f).
  rewrite strings_Join_concat.
  2:{ apply Forall_forall. intros l Hl. apply list_elem_of_In, in_map_iff in Hl.
      destruct Hl as (m & <- & Hm). apply order_nonempty; [done|].
      rewrite Forall_forall in Hf. apply list_elem_of_In in Hm. by apply (Hf m). }
  unfold skip_set_of. rewrite strings_Split_Join.
  2:{ destruct f as [|m f]; [done|]. simpl. apply Forall_cons in Hf as [[Hm _] _].
      pose proof (order_nonempty order m Hv Hm). by destruct (order m). }
  rewrite concat_map_Split_free.
  2:{ intros t Ht. apply in_concat in Ht as (l & Hl & Ht).
      apply in_map_iff in Hl as (m & <- & Hm).
      rewrite Forall_forall in Hf. apply list_elem_of_In in Hm.
      apply (Hf m Hm). by apply (order_elem order). }
  apply set_eq. intros k. rewrite elem_of_list_to_set, elem_of_union_list. split.
  - intros Hk. apply list_elem_of_In, in_concat in Hk as (l & Hl & Hk).
    apply in_map_iff in Hl as (m & <- & Hm).
    exists m. split; [by apply list_elem_of_In|]. by apply (order_elem order).
  - intros (m & Hm & Hk). apply list_elem_of_In, in_concat.
    exists (order m). split; [apply in_map; by apply list_elem_of_In|].
    by apply (order_elem order).
Qed.

(* ===================================================================== *)
(** ** Lemmas: the shape of a parse *)
(* ===================================================================== *)

(** A parse in which [flag.Parse] refuses no occurrence is the [Set] calls
    of the [-o] occurrences, and, when they all succeed, the flag variables
    that the occurrences of each flag describe. *)
Lemma flag_Parse_canonical args : forall fl st,
  refused_args args = [] ->
  flag_Parse args fl st
  = match parse_outputs (o_args args) (outputF fl) st with
    | (inr e, st') => (inr e, st')
    | (inl o, st') => (inl (flags_after args fl o), st')
    end.
Proof.
  induction args as [|a args IH]; intros fl st Href.
  - simpl. unfold flags_after. simpl. rewrite !app_nil_r. by destruct fl.
  - assert (Ha : refusal a = None /\ refused_args args = []).
    { unfold refused_args in Href. simpl in Href. by destruct (refusal a). }
    destruct Ha as [Ha Href'].
    destruct a; simpl in Ha; [..|done]; cbn [flag_Parse flag_set];
      try (destruct (in_int_range n); [|done]);
      try rewrite skipsVal_Set_spec;
      unfold typesVal_Set, buildTagsVal_Set;
      try (rewrite IH by done; simpl;
           destruct (parse_outputs (o_args args) (outputF fl) st) as [[o|e] st'];
           [|done]; do 2 f_equal; unfold flags_after; simpl;
           unfold pointer_receiver_args, maxdepth_args, method_args,
             return_interface_args, return_interface_dep_args,
             return_interface_dep_path_args, another_struct_args, type_args,
             skip_args, tags_args; simpl;
           rewrite ?last_or_cons, <- ?app_assoc; done).
    change (o_args (A_o v :: args)) with (v :: o_args args). simpl.
    destruct (outputVal_Set (outputF fl) v st) as [[o1 [e|]] st1]; [done|].
    rewrite IH by done. simpl.
    destruct (parse_outputs (o_args args) o1 st1) as [[o|e] st']; [|done].
    done.
Qed.

Lemma same_flag_values_after args1 args2 fl o :
  same_flag_values args1 args2 -> flags_after args1 fl o = flags_after args2 fl o.
Proof.
  intros (H1 & H2 & H3 & H4 & H5 & H6 & H7 & H8 & H9 & _ & H11).
  unfold flags_after. by rewrite H1, H2, H3, H4, H5, H6, H7, H8, H9, H11.
Qed.

Lemma flag_Parse_same_values args1 args2 fl st :
  refused_args args1 = [] -> refused_args args2 = [] ->
  same_flag_values args1 args2 ->
  flag_Parse args1 fl st = flag_Parse args2 fl st.
Proof.
  intros Hr1 Hr2 Hs. rewrite !flag_Parse_canonical by done.
  pose proof (same_flag_values_after args1 args2 fl) as Hafter.
  destruct Hs as (H1 & H2 & H3 & H4 & H5 & H6 & H7 & H8 & H9 & H10 & H11).
  rewrite H10.
  destruct (parse_outputs (o_args args2) (outputF fl) st) as [[o|e] st']; [|done].
  rewrite Hafter; [done|]. by repeat split.
Qed.

(** What one [Set] of the output value leaves behind. *)
Lemma outputVal_Set_step o v st o' e st' :
  outputVal_Set o v st = (o', e, st') ->
  exists evs,
    trace st' = trace st ++ evs /\
    match e with
    | None =>
        opened_paths evs
        = match names_file v with Some p => [p] | None => [] end /\
        name o' = shown_name v
    | Some err =>
        names_file v = Some v /\ err = Errorf ("opening file: " +:+ v) /\
        files st' !! v = Some Unopenable
    end.
Proof.
  unfold outputVal_Set, shown_name, names_file.
  destruct (String.eqb v "-" || String.eqb v "")%bool.
  - intros [= <- <- <-].
    exists (match file o with Some h => [EvClose h] | None => [] end).
    split; [destruct (file o); simpl; by rewrite ?app_nil_r|].
    split; [by destruct (file o)|done].
  - unfold os_OpenFile. simpl.
    destruct (files st !! v) as [[d| |]|] eqn:Ef; intros [= <- <- <-];
      exists [EvOpenFile v]; (split; [done|]); simpl; done.
Qed.


Lemma flag_set_o_opens v fl st fl1 st1 p :
  flag_set (A_o v) fl st = (fl1, None, st1) ->
  names_file v = Some p ->
  files st !! p <> Some Unopenable /\
  exists n, files st1 !! p = Some n /\ n <> Unopenable.
Proof.
  simpl. unfold outputVal_Set, names_file.
  destruct (String.eqb v "-" || String.eqb v "")%bool; [done|].
  intros Hs [= <-]. unfold os_OpenFile in Hs. simpl in Hs.
  destruct (files st !! v) as [[d| |]|] eqn:Ef; simplify_eq; simpl.
  - split; [done|]. exists (Regular d). by rewrite Ef.
  - split; [done|]. exists Special. by rewrite Ef.
  - split; [done|]. exists (Regular ""). by rewrite lookup_insert_eq.
Qed.

Lemma omap_names_file_cons a args p :
  In p (omap names_file (o_args (a :: args))) ->
  (exists v, a = A_o v /\ names_file v = Some p) \/
  In p (omap names_file (o_args args)).
Proof.
  destruct a; try (by right). unfold o_args. simpl.
  destruct (names_file v) eqn:En; [|by right].
  intros [<-|Hp]; [left; by exists v|by right].
Qed.

(** A parse that succeeds met no path it could not open, and every file
    that a [-o] occurrence names exists after it. *)
Lemma flag_Parse_ok_files args : forall fl st fl' st',
  flag_Parse args fl st = (inl fl', st') ->
  forall p, In p (omap names_file (o_args args)) ->
    files st !! p <> Some Unopenable /\
    exists n, files st' !! p = Some n /\ n <> Unopenable.
Proof.
  induction args as [|a args IH]; intros fl st fl' st'; [by intros _ p []|].
  simpl. destruct (flag_set a fl st) as [[fl1 [e|]] st1] eqn:Es; [done|].
  intros Hp p Hin.
  destruct (flag_set_state _ _ _ _ _ _ Es) as (_ & _ & Hk1 & _).
  destruct (flag_Parse_state _ _ _ _ _ Hp) as (_ & _ & Hk2 & _).
  apply omap_names_file_cons in Hin as [(v & -> & Hv)|Hin].
  - destruct (flag_set_o_opens _ _ _ _ _ _ Es Hv) as (Hno & n & Hn & Hnu).
    split; [done|]. exists n. split; [|done].
    destruct (Hk2 p) as [->|[Hnone _]]; congruence.
  - destruct (IH _ _ _ _ Hp p Hin) as (Hno & n & Hn & Hnu). split; [|by exists n].
    intros Hu. destruct (Hk1 p) as [Heq|[Hnone _]]; congruence.
Qed.

(** What one occurrence leaves behind. *)
Lemma flag_set_step a fl st fl1 e st1 :
  flag_set a fl st = (fl1, e, st1) ->
  exists evs,
    trace st1 = trace st ++ evs /\
    match e with
    | None =>
        opened_paths evs = omap names_file (o_args [a]) /\
        name (outputF fl1) = last_or (name (outputF fl)) (map shown_name (o_args [a]))
    | Some err =>
        (exists p, In p (omap names_file (o_args [a])) /\
                   err = Errorf ("opening file: " +:+ p) /\
                   files st1 !! p = Some Unopenable) \/
        (exists text, refusal a = Some text /\ err = LibError text)
    end.
Proof.
  destruct a; cbn [flag_set refusal]; try destruct (in_int_range n);
    try rewrite skipsVal_Set_spec;
    unfold typesVal_Set, buildTagsVal_Set;
    try (intros [= <- <- <-]; exists []; rewrite app_nil_r; (split; [done|]); done).
  - intros [= <- <- <-]. exists []. rewrite app_nil_r. split; [done|].
    right. by exists out_of_range.
  - destruct (outputVal_Set (outputF fl) v st) as [[o1 e1] st0] eqn:Es.
    intros [= <- <- <-].
    destruct (outputVal_Set_step _ _ _ _ _ _ Es) as (evs & Ht & Hstep).
    exists evs. split; [done|]. destruct e1 as [err|].
    + destruct Hstep as (Hn & -> & Hf). left. exists v. unfold o_args. simpl.
      rewrite Hn. split; [by left|done].
    + destruct Hstep as (Hop & Hn). unfold o_args. simpl.
      split; [rewrite Hop; by destruct (names_file v)|]. by rewrite last_or_cons.
  - intros [= <- <- <-]. exists []. rewrite app_nil_r. split; [done|].
    right. by exists text.
Qed.

Lemma o_args_cons a args : o_args (a :: args) = o_args [a] ++ o_args args.
Proof. unfold o_args. by destruct a. Qed.

Lemma last_or_app {A} (d : A) l1 l2 : last_or d (l1 ++ l2) = last_or (last_or d l1) l2.
Proof.
  unfold last_or. rewrite last_app. by destruct (last l2).
Qed.

(** What a parse leaves behind: the files named by the [-o] occurrences
    have been opened, in order; a parse that fails does so at a path that
    cannot be opened or at an occurrence that [flag.Parse] refuses. *)
Lemma flag_Parse_opened args : forall fl st r st1,
  flag_Parse args fl st = (r, st1) ->
  exists evs, trace st1 = trace st ++ evs /\
    (forall fl1, r = inl fl1 ->
       opened_paths evs = omap names_file (o_args args) /\
       name (outputF fl1) = last_or (name (outputF fl)) (map shown_name (o_args args))) /\
    (forall e, r = inr e ->
       (exists p, In p (omap names_file (o_args args)) /\
                  e = Errorf ("opening file: " +:+ p) /\
                  files st1 !! p = Some Unopenable) \/
       (exists text, In text (refused_args args) /\ e = LibError text)).
Proof.
  induction args as [|a args IH]; intros fl st r st1.
  - simpl. intros [= <- <-]. exists []. rewrite app_nil_r. split; [done|].
    split; [by intros fl1 [= <-]|]. by intros e [=].
  - rewrite (o_args_cons a args). cbn [flag_Parse].
    destruct (flag_set a fl st) as [[fl0 e0] st0] eqn:Es.
    destruct (flag_set_step _ _ _ _ _ _ Es) as (evs0 & Ht0 & Hstep).
    destruct e0 as [err|].
    + intros [= <- <-]. exists evs0. split; [done|]. split; [by intros fl1 [=]|].
      intros e [= <-]. destruct Hstep as [(p & Hp & He & Hf)|(text & Hr & He)].
      * left. exists p. split; [|done]. rewrite omap_app. apply in_or_app. by left.
      * right. exists text. split; [|done]. unfold refused_args. simpl.
        rewrite Hr. by left.
    + intros Hp. apply IH in Hp as (evs & Ht & Hok & Herr).
      destruct Hstep as (Hop0 & Hn0).
      exists (evs0 ++ evs). split; [by rewrite Ht, Ht0, app_assoc|]. split.
      * intros fl1 Hr. destruct (Hok fl1 Hr) as [Hop Hn]. split.
        -- unfold opened_paths in *. by rewrite !omap_app, Hop, Hop0.
        -- by rewrite map_app, last_or_app, <- Hn0.
      * intros e Hr. destruct (Herr e Hr) as [(p & Hp & He & Hf)|(text & Hin & He)].
        -- left. exists p. split; [|done]. rewrite omap_app. apply in_or_app. by right.
        -- right. exists text. split; [|done]. unfold refused_args in *.
           simpl. destruct (refusal a); [by right|done].
Qed.

Lemma new_events_parse_opened args st r st1 :
  flag_Parse args initial_flags st = (r, st1) ->
  exists evs, trace st1 = trace st ++ evs /\
    (forall fl, r = inl fl ->
       opened_paths evs = omap names_file (o_args args) /\
       name (outputF fl) = last_or "" (map shown_name (o_args args))) /\
    (forall e, r = inr e ->
       (exists p, In p (omap names_file (o_args args)) /\
                  e = Errorf ("opening file: " +:+ p)) \/
       (exists text, In text (refused_args args) /\ e = LibError text)).
Proof.
  intros Hp. destruct (flag_Parse_opened _ _ _ _ _ Hp) as (evs & Ht & Hok & Herr).
  exists evs. split; [done|]. split; [exact Hok|].
  intros e He. destruct (Herr e He) as [(p & Hin & -> & _)|Hr]; [left; by exists p|by right].
Qed.

Lemma opened_paths_app evs1 evs2 :
  opened_paths (evs1 ++ evs2) = opened_paths evs1 ++ opened_paths evs2.
Proof. unfold opened_paths. apply omap_app. Qed.

Section MoreProperties.
  Variable packages_Load : gmap string node -> string -> string + list Package.
  Variable delim : ascii.
  Variable wildcard : string.
  Variable order : RangeOrder.
  Variable emit : Generator -> Package -> list (string * CopyPlanNode) -> string.

  Local Abbreviation main' := (main packages_Load delim wildcard order emit).
  Local Abbreviation run' := (run packages_Load delim wildcard order emit).

(** The ways a run of [main] can go, each with its outcome and its final
    state in terms of the state [st1] that flag parsing leaves. *)
Lemma main_cases args pos st o st' :
  main' args pos st = (o, st') ->
  exists r st1,
    flag_Parse args initial_flags st = (r, st1) /\
    ((exists err, r = inr err /\ o = ExitUsage err /\ st' = st1) \/
     (exists fl, r = inl fl /\
        let st2 := log EvNewGenerator st1 in
        let path := nth 0 pos "" in
        let types := type_args args in
        let failed := "Error generating deep copy method:" in
        (o = Fatalln "no type given" None /\ st' = st1) \/
        (length pos <> 1 /\ o = Fatalln "No package path given" None /\ st' = st1) \/
        (length pos = 1 /\
         ((o = Rejected ConfigurationError /\ st' = st2) \/
          (exists p, output_path args = Some p /\ files st1 !! p = Some Special /\
             o = Fatalln "Error initializing output file:"
                   (Some (LibError ("truncate " +:+ p))) /\
             st' = log (EvTruncate p) st2) \/
          (exists g st3,
             generator_of fl = inr g /\
             files st3 = files_at_load args st /\
             match output_path args with
             | None => st3 = st2
             | Some p =>
                 (exists d, files st1 !! p = Some (Regular d)) /\
                 st3 = set_files (<[p := Regular ""]> (files st1))
                         (log (EvTruncate p) st2)
             end /\
             let st4 := log (EvLoad path) st3 in
             ((exists err, packages_Load (files st3) path = inl err /\
                 o = Fatalln failed (Some (Errorf ("loading package: " +:+ err))) /\
                 st' = st4) \/
              (packages_Load (files st3) path = inr [] /\
                 o = Fatalln failed (Some (Errorf "no package found")) /\ st' = st4) \/
              (exists pkg rest, packages_Load (files st3) path = inr (pkg :: rest) /\
                 ((exists e, generateFrom delim wildcard order g pkg 0 types = inl e /\
                     o = Fatalln failed (Some (GenErr e)) /\
                     st' = log (EvGenerate types) st4) \/
                  (exists plans,
                     generateFrom delim wildcard order g pkg 0 types = inr plans /\
                     o = Exit0 /\
                     st' = File_Close (output_writer args)
                             (Writer_Write (output_writer args) (emit g pkg plans)
                                (log (EvGenerate types) st4))))))))))).
Proof.
  unfold main.
  destruct (flag_Parse args initial_flags st) as [[fl|err] st1] eqn:Hp.
  2:{ intros [= <- <-]. exists (inr err), st1. split; [done|]. left. by exists err. }
  destruct (flag_Parse_initial _ _ _ _ Hp) as (Hty & _ & _ & Hfile & Ha & Hpr & Hop).
  intros Hm. exists (inl fl), st1. split; [done|]. right. exists fl. split; [done|].
  cbv zeta. revert Hm. case_match.
  { intros [= <- <-]. by left. }
  case_match eqn:Hpos.
  { intros [= <- <-]. right. left. split; [|done].
    intros Hl. rewrite Hl in Hpos. done. }
  intros Hm. right. right.
  split. { apply negb_false_iff, Nat.eqb_eq in Hpos. exact Hpos. }
  revert Hm. simpl. unfold NewGenerator.
  destruct (allowedCopyToAnotherStructF fl && negb (pointerReceiverF fl))%bool eqn:Hb.
  { intros [= <- <-]. by left. }
  pose proof (outputVal_Open_parsed _ (log EvNewGenerator st1) _ Hfile) as Hopen.
  rewrite Hty. unfold output_writer.
  set (g := mkGenerator _ _ _ _ _ _ _ _ _).
  assert (Hg : generator_of fl = inr g).
  { unfold generator_of, NewGenerator. by rewrite Hb. }
  unfold files_at_load. rewrite Hp. cbn [snd].
  destruct (output_path args) as [p|] eqn:Hout.
  - simpl in Hopen. destruct (Hop p Hfile) as (n & Hn & Hnu).
    rewrite Hn in Hopen. destruct n as [d| |]; [| |done]; rewrite Hopen.
    + unfold run, load. simpl. intros Hm. right. right.
      exists g, (set_files (<[p := Regular ""]> (files st1))
                   (log (EvTruncate p) (log EvNewGenerator st1))).
      split; [exact Hg|]. split; [reflexivity|].
      split; [split; [by exists d|reflexivity]|]. simpl.
      destruct (packages_Load _ _) as [lerr|[|pkg rest]].
      * injection Hm as <- <-. left. by exists lerr.
      * injection Hm as <- <-. right. left. done.
      * right. right. exists pkg, rest. split; [done|].
        unfold Generator_Generate in Hm.
        destruct (generateFrom _ _ _ _ _ _ _) as [e|plans].
        -- injection Hm as <- <-. left. by exists e.
        -- injection Hm as <- <-. right. by exists plans.
    + intros [= <- <-]. right. left. by exists p.
  - simpl in Hopen. rewrite Hopen. unfold run, load. simpl. intros Hm. right. right.
    exists g, (log EvNewGenerator st1). split; [exact Hg|]. split; [reflexivity|].
    split; [reflexivity|]. simpl.
    destruct (packages_Load _ _) as [lerr|[|pkg rest]].
    * injection Hm as <- <-. left. by exists lerr.
    * injection Hm as <- <-. right. left. done.
    * right. right. exists pkg, rest. split; [done|].
      unfold Generator_Generate in Hm.
      destruct (generateFrom _ _ _ _ _ _ _) as [e|plans].
      -- injection Hm as <- <-. left. by exists e.
      -- injection Hm as <- <-. right. by exists plans.
Qed.

Ltac main_inversion Hm :=
  let r := fresh "r" in let st1 := fresh "st1" in
  let Hp := fresh "Hp" in let Hc := fresh "Hc" in
  destruct (main_cases _ _ _ _ _ Hm) as (r & st1 & Hp & Hc);
  let pre := fresh "pre" in
  let Ht := fresh "Ht" in let Hpre := fresh "Hpre" in
  let Hs := fresh "Hs" in let Hk := fresh "Hk" in
  destruct (flag_Parse_state _ _ _ _ _ Hp) as ((pre & Ht & Hpre) & Hs & Hk & _);
  let err := fresh "err" in let fl := fresh "fl" in
  let Hr := fresh "Hr" in let Hl := fresh "Hl" in
  let p := fresh "p" in let Hout := fresh "Hout" in let Hsp := fresh "Hsp" in
  let g := fresh "g" in let st3 := fresh "st3" in
  let Hst3 := fresh "Hst3" in let Hrun := fresh "Hrun" in
  let Hg := fresh "Hg" in let Hfl := fresh "Hfl" in
  destruct Hc as [(err & Hr & -> & ->) | (fl & Hr & Hc)];
  [ | cbv zeta in Hc;
      destruct Hc as [(-> & ->) | [(Hl & -> & ->) |
        (Hl & [(-> & ->) | [(p & Hout & Hsp & -> & ->) |
          (g & st3 & Hg & Hfl & Hst3 & Hrun)]])]];
      [ | | | |
        let lerr := fresh "lerr" in let Hload := fresh "Hload" in
        let pkg := fresh "pkg" in let rest := fresh "rest" in
        let e := fresh "e" in let plans := fresh "plans" in
        let Hgen := fresh "Hgen" in
        destruct Hrun as [(lerr & Hload & -> & ->) | [(Hload & -> & ->) |
          (pkg & rest & Hload &
             [(e & Hgen & -> & ->) | (plans & Hgen & -> & ->)])]] ] ].

(* ===================================================================== *)
(** ** Lemmas: the errors and the plans of the generator *)
(* ===================================================================== *)

Lemma compile_Err raws e :
  compile delim wildcard raws = inl e -> exists raw, e = SelectorSyntaxError raw.
Proof.
  unfold compile. generalize (merge_sort string_le raws). intros l.
  induction l as [|r l IH]; simpl; [done|].
  destruct (compileSelector delim wildcard r) as [e0|sel] eqn:Ec; simpl.
  - intros [= <-]. unfold compileSelector in Ec.
    destruct (mapM _ _); [done|]. injection Ec as <-. by eexists.
  - destruct (mapE _ l) as [e1|sels]; simpl; [|done].
    intros [= <-]. by apply IH.
Qed.

Lemma walk_Err shapes sels md id e :
  walk shapes sels md id = inl e ->
  e = InternalError \/ exists missing, e = UnresolvedTypeError missing.
Proof.
  unfold walk.
  destruct (walk_fuel shapes sels md (S (length shapes)) [] [] 0 id) as [p|e0|] eqn:Ew;
    [done| |intros [= <-]; by left].
  intros [= <-]. right. by eapply walk_fuel_Err.
Qed.

(** What a requested type that goes through went through. *)
Lemma generateType_inr g pkg i name p :
  generateType delim wildcard order g pkg i name = inr p ->
  exists id sels plan,
    resolve pkg name = inr id /\
    compile delim wildcard (order (SkipLists_Get (skipLists g) i)) = inr sels /\
    walk (arena pkg) sels (maxDepth g) id = inr plan /\
    p = (name, plan).
Proof.
  unfold generateType.
  destruct (resolve pkg name) as [e|id] eqn:Er; [done|]. simpl.
  destruct (compile _ _ _) as [e|sels] eqn:Ec; [done|]. simpl.
  destruct (walk _ _ _ _) as [e|plan] eqn:Ew; [done|]. simpl.
  intros [= <-]. by exists id, sels, plan.
Qed.

(** A resolution error is the error of a requested name that the package
    does not resolve. *)
Lemma generateFrom_ResolutionError g pkg types : forall i bad,
  generateFrom delim wildcard order g pkg i types = inl (ResolutionError bad) ->
  In bad types /\ resolve pkg bad = inl (ResolutionError bad).
Proof.
  induction types as [|t types IH]; intros i bad; [done|]. simpl.
  destruct (generateType delim wildcard order g pkg i t) as [e|p] eqn:Et; simpl.
  - intros [= ->]. unfold generateType in Et.
    destruct (resolve pkg t) as [e|id] eqn:Er; simpl in Et.
    + injection Et as ->. unfold resolve in Er.
      assert (bad = t) as ->.
      { destruct (decls pkg !! t); [destruct (struct_like _ _)|]; congruence. }
      split; [by left|]. unfold resolve.
      destruct (decls pkg !! t); [destruct (struct_like _ _)|]; congruence.
    + destruct (compile _ _ _) as [e|sels] eqn:Ec; simpl in Et.
      * injection Et as ->. by destruct (compile_Err _ _ Ec).
      * destruct (walk _ _ _ _) as [e|plan] eqn:Ew; simpl in Et; [|done].
        injection Et as ->. by destruct (walk_Err _ _ _ _ _ Ew) as [?|[? ?]].
  - destruct (generateFrom delim wildcard order g pkg (S i) types) as [e|ps] eqn:Ef;
      simpl; [|done].
    intros [= ->]. destruct (IH _ _ Ef) as [Hin Hr]. split; [by right|done].
Qed.

(** The plan at position [k] is the plan of the name at position [k], built
    with the skip set at that position. *)
Lemma generateFrom_lookup g pkg types : forall i plans,
  generateFrom delim wildcard order g pkg i types = inr plans ->
  length plans = length types /\
  forall k name, types !! k = Some name ->
    exists p, generateType delim wildcard order g pkg (i + k) name = inr p /\
              plans !! k = Some p.
Proof.
  induction types as [|t types IH]; intros i plans; simpl.
  - intros [= <-]. split; [done|]. by intros k name.
  - destruct (generateType delim wildcard order g pkg i t) as [e|p] eqn:Et; [done|].
    simpl.
    destruct (generateFrom delim wildcard order g pkg (S i) types) as [e|ps] eqn:Ef;
      [done|]. simpl. intros [= <-].
    destruct (IH _ _ Ef) as [Hlen Hk]. split; [simpl; by rewrite Hlen|].
    intros [|k] name; simpl.
    + intros [= <-]. exists p. by rewrite Nat.add_0_r.
    + intros Hn. destruct (Hk k name Hn) as (q & Hq & Hl).
      exists q. split; [|done]. by rewrite <- Nat.add_succ_comm.
Qed.

Lemma skip_set_at_spec args i :
  SkipLists_Get (map skip_set_of (skip_args args)) i = skip_set_at args i.
Proof. apply SkipLists_Get_map. Qed.

Lemma generator_of_fields fl g :
  generator_of fl = inr g ->
  skipLists g = skipsF fl /\ maxDepth g = maxDepthF fl /\ buildTags g = buildTagsF fl.
Proof.
  unfold generator_of, NewGenerator. case_match; [done|]. by intros [= <-].
Qed.

(** The events of a run that succeeds. *)
Lemma success_events args pos st st1 pre g pkg plans st3 :
  trace st1 = trace st ++ pre ->
  match output_path args with
  | None => st3 = log EvNewGenerator st1
  | Some p =>
      (exists d, files st1 !! p = Some (Regular d)) /\
      st3 = set_files (<[p := Regular ""]> (files st1))
              (log (EvTruncate p) (log EvNewGenerator st1))
  end ->
  let text := emit g pkg plans in
  let st' := File_Close (output_writer args)
               (Writer_Write (output_writer args) text
                  (log (EvGenerate (type_args args)) (log (EvLoad (nth 0 pos "")) st3))) in
  new_events st st'
  = pre ++ [EvNewGenerator]
        ++ match output_path args with Some p => [EvTruncate p] | None => [] end
        ++ [EvLoad (nth 0 pos ""); EvGenerate (type_args args);
            EvWrite (output_writer args) text; EvClose (output_writer args)] /\
  match output_path args with
  | None => stdout st' = stdout st1 +:+ text
  | Some p => files st' !! p = Some (Regular text) /\ stdout st' = stdout st1
  end.
Proof.
  intros Ht Hst3. cbv zeta. unfold output_writer.
  destruct (output_path args) as [p|].
  - destruct Hst3 as [_ ->]. simpl. rewrite lookup_insert_eq. simpl. split.
    + apply new_events_app. simpl. rewrite Ht, <- !app_assoc. reflexivity.
    + rewrite lookup_insert_eq, string_drop_empty, string_app_empty_r. done.
  - subst st3. simpl. split; [|done].
    apply new_events_app. simpl. rewrite Ht, <- !app_assoc. reflexivity.
Qed.

(* ===================================================================== *)
(** ** Properties of a run: the output, the loader, the skip sets *)
(* ===================================================================== *)

(** C1 (as amended).  In every run in which a requested type name is absent
    from the package the loader resolves (on the files as they are when it
    is called), the run does not succeed, no text is written to the output
    sink (no write call, the standard output stream unchanged), and a run
    that gets to the generator ends with the generator's error.  In every
    run that ends with a [ResolutionError], the name it carries is a
    requested name that the package does not resolve, no text has been
    written, and the file named by [-o] has not stayed untouched: it has
    been truncated, since [main] opens the output before it calls [run], and
    is an empty regular file when the run ends. *)
Theorem C1_absent_type_no_write args pos st o st' :
  main' args pos st = (o, st') ->
  (forall pkg rest bad,
     packages_Load (files_at_load args st) (nth 0 pos "") = inr (pkg :: rest) ->
     In bad (type_args args) ->
     decls pkg !! bad = None ->
     o <> Exit0 /\
     stdout st' = stdout st /\
     Forall (fun ev => is_write ev = false) (new_events st st') /\
     (In (EvGenerate (type_args args)) (new_events st st') ->
      exists e, o = Fatalln "Error generating deep copy method:" (Some (GenErr e))) /\
     (forall e, o = Fatalln "Error generating deep copy method:" (Some (GenErr e)) ->
        forall p, output_path args = Some p -> files st' !! p = Some (Regular ""))) /\
  (forall bad,
     o = Fatalln "Error generating deep copy method:"
           (Some (GenErr (ResolutionError bad))) ->
     In bad (type_args args) /\
     (exists pkg rest,
        packages_Load (files_at_load args st) (nth 0 pos "") = inr (pkg :: rest) /\
        resolve pkg bad = inl (ResolutionError bad)) /\
     stdout st' = stdout st /\
     Forall (fun ev => is_write ev = false) (new_events st st') /\
     (forall p, output_path args = Some p ->
        In (EvTruncate p) (new_events st st') /\
        files st' !! p = Some (Regular ""))).
Proof.
  intros Hm. split.
  - intros pkg0 rest0 bad Hload0 Hin Hbad.
    main_inversion Hm.
    all: assert (Hprew : Forall (fun e => is_write e = false) pre)
           by (eapply Forall_impl; [exact Hpre|]; by intros []).
    all: assert (Hnogen : ~ In (EvGenerate (type_args args)) pre)
           by (intros Hg'; rewrite Forall_forall in Hpre;
               by apply list_elem_of_In, Hpre in Hg').
    1-3: rewrite (new_events_app _ _ _ Ht); repeat split; done.
    1-2: (erewrite new_events_app; [|simpl; rewrite Ht, <- ?app_assoc; reflexivity]);
         (split; [done|]); (split; [done|]);
         (split; [apply Forall_app; split; [done|]; by repeat constructor|]);
         (split; [|done]);
         intros [Hg'|Hg']%in_app_or; [done|]; simpl in Hg'; intuition discriminate.
    all: rewrite Hfl in Hload; rewrite Hload0 in Hload; try discriminate.
    + injection Hload as <- <-.
      destruct (output_path args) as [q|]; [destruct Hst3 as [_ ->]|subst st3]; simpl.
      all: (erewrite new_events_app; [|simpl; rewrite Ht, <- ?app_assoc; reflexivity]).
      all: (split; [done|]); (split; [done|]).
      all: (split; [apply Forall_app; split; [done|]; by repeat constructor|]).
      all: (split; [intros _; by exists e|]).
      * intros e0 _ p0 [= <-]. by rewrite lookup_insert_eq.
      * by intros e0 _ p0 [=].
    + injection Hload as <- <-.
      destruct (generateFrom_absent delim wildcard order g pkg0 bad (type_args args) 0
                  Hin Hbad) as [e He]. congruence.
  - intros bad Ho. main_inversion Hm; try discriminate.
    injection Ho as ->.
    destruct (generateFrom_ResolutionError _ _ _ _ _ Hgen) as [Hin Hres].
    split; [done|]. split; [exists pkg, rest; by rewrite <- Hfl|].
    assert (Hprew : Forall (fun e => is_write e = false) pre)
      by (eapply Forall_impl; [exact Hpre|]; by intros []).
    destruct (output_path args) as [q|]; [destruct Hst3 as [_ ->]|subst st3]; simpl.
    all: (erewrite new_events_app; [|simpl; rewrite Ht, <- ?app_assoc; reflexivity]).
    all: (split; [done|]).
    all: (split; [apply Forall_app; split; [done|]; by repeat constructor|]).
    + intros p0 [= <-]. split; [|by rewrite lookup_insert_eq].
      apply in_or_app. right. simpl. tauto.
    + by intros p0 [=].
Qed.

(** C7.  The last [-o] occurrence decides the destination: it stands for the
    standard output stream when it is absent, [-] or empty, and names a file
    otherwise.  In every run that succeeds, the artifact (the text the
    emitter gives for the generator that [main] constructs, the first
    package the loader returns and the plans of the requested types) is the
    one text written: to the standard output stream, which grows by exactly
    it; or to the named file, which is truncated before the write and holds
    exactly the artifact afterwards, the standard output stream being
    unchanged. *)
Theorem C7_output_destination args pos st st' :
  main' args pos st = (Exit0, st') ->
  (output_path args = None <->
     last (o_args args) = None \/ last (o_args args) = Some "-"
     \/ last (o_args args) = Some "") /\
  exists fl st1 g pkg rest plans pre,
    flag_Parse args initial_flags st = (inl fl, st1) /\
    generator_of fl = inr g /\
    packages_Load (files_at_load args st) (nth 0 pos "") = inr (pkg :: rest) /\
    generateFrom delim wildcard order g pkg 0 (type_args args) = inr plans /\
    Forall (fun e => parse_event e = true) pre /\
    new_events st st'
    = pre ++ [EvNewGenerator]
          ++ match output_path args with Some p => [EvTruncate p] | None => [] end
          ++ [EvLoad (nth 0 pos ""); EvGenerate (type_args args);
              EvWrite (output_writer args) (emit g pkg plans);
              EvClose (output_writer args)] /\
    match output_path args with
    | None => stdout st' = stdout st +:+ emit g pkg plans
    | Some p =>
        last (o_args args) = Some p /\
        files st' !! p = Some (Regular (emit g pkg plans)) /\
        stdout st' = stdout st
    end.
Proof.
  intros Hm. split.
  { unfold output_path, names_file. destruct (last (o_args args)) as [v|]; [|naive_solver].
    destruct (String.eqb_spec v "-") as [->|H1]; [naive_solver|].
    destruct (String.eqb_spec v "") as [->|H2]; [naive_solver|].
    simpl. naive_solver. }
  remember Exit0 as o eqn:Ho. main_inversion Hm; try discriminate. subst r.
  exists fl, st1, g, pkg, rest, plans, pre.
  split; [done|]. split; [done|]. split; [by rewrite <- Hfl|]. split; [done|].
  split; [done|].
  destruct (success_events args pos st st1 pre g pkg plans st3 Ht Hst3) as [Hev Hres].
  split; [exact Hev|].
  destruct (output_path args) as [p|] eqn:Hout.
  - destruct Hres as [Hf Hso]. split; [|split; [done|congruence]].
    unfold output_path, names_file in Hout.
    destruct (last (o_args args)) as [v|]; [|done].
    destruct (String.eqb v "-" || String.eqb v "")%bool; [done|]. congruence.
  - congruence.
Qed.

(** C8.  When the loader succeeds with zero packages, [run] returns the error
    with the text "no package found" right after the load, which differs
    from every error of a failed load.  In a run of the driver in which the
    loader, on the files as they are when it is called, finds zero packages
    for the given pattern, the generator is never invoked and nothing is
    written, so the run does not succeed; and once the loader has been
    called, the run ends with exactly that error. *)
Theorem C8_no_package_found args pos st o st' :
  packages_Load (files_at_load args st) (nth 0 pos "") = inr [] ->
  main' args pos st = (o, st') ->
  (forall g w path types st0,
     packages_Load (files st0) path = inr [] ->
     run' g w path types st0
     = (Some (Errorf "no package found"), log (EvLoad path) st0)) /\
  (forall err, Errorf ("loading package: " +:+ err) <> Errorf "no package found") /\
  Forall (fun e => is_generate e = false /\ is_write e = false) (new_events st st') /\
  o <> Exit0 /\
  (forall err, o = Fatalln "Error generating deep copy method:" (Some err) ->
     err = Errorf "no package found") /\
  (In (EvLoad (nth 0 pos "")) (new_events st st') ->
   o = Fatalln "Error generating deep copy method:" (Some (Errorf "no package found"))).
Proof.
  intros Hload0 Hm. split.
  { intros g w path types st0 Hl. unfold run, load. simpl. by rewrite Hl. }
  split; [intros err [= H]; by apply loading_package_not_no_package in H|].
  main_inversion Hm.
  all: assert (Hpre' : Forall (fun e => is_generate e = false /\ is_write e = false) pre)
         by (eapply Forall_impl; [exact Hpre|]; by intros []).
  all: assert (Hnoload : ~ In (EvLoad (nth 0 pos "")) pre)
         by (intros Hl'; rewrite Forall_forall in Hpre;
             by apply list_elem_of_In, Hpre in Hl').
  1-3: rewrite (new_events_app _ _ _ Ht); repeat split; done.
  1-2: (erewrite new_events_app; [|simpl; rewrite Ht, <- ?app_assoc; reflexivity]);
       (split; [apply Forall_app; split; [done|]; by repeat constructor|]);
       (split; [done|]); (split; [done|]);
       intros [Hl'|Hl']%in_app_or; [done|]; simpl in Hl'; intuition discriminate.
  all: rewrite Hfl in Hload; rewrite Hload0 in Hload; try discriminate.
  destruct (output_path args) as [q|]; [destruct Hst3 as [_ ->]|subst st3]; simpl.
  all: (erewrite new_events_app; [|simpl; rewrite Ht, <- ?app_assoc; reflexivity]).
  all: (split; [apply Forall_app; split; [done|]; by repeat constructor|]).
  all: (split; [done|]); split; [by intros err [= <-]|done].
Qed.

(** C6.  Each [-skip] occurrence appends exactly one skip set, the set of the
    comma-separated parts of its argument (so repeated parts collapse); a
    position past the end of the list has the empty skip set.  The generator
    is constructed with that list, and the list is aligned with the [-type]
    occurrences by position: in a run that succeeds, the plan at position
    [i] of the artifact is the plan of the [i]-th [-type] name, built under
    the selectors compiled from the skip set of the [i]-th [-skip]
    occurrence, or from the empty set when there are fewer [-skip]
    occurrences. *)
Theorem C6_skip_sets args st fl st1 :
  flag_Parse args initial_flags st = (inl fl, st1) ->
  skipsF fl = map skip_set_of (skip_args args) /\
  length (skipsF fl) = length (skip_args args) /\
  (forall i v, skip_args args !! i = Some v ->
     SkipLists_Get (skipsF fl) i = skip_set_of v /\
     forall s, s ∈ SkipLists_Get (skipsF fl) i <-> In s (strings_Split v comma)) /\
  (forall i, length (skip_args args) <= i -> SkipLists_Get (skipsF fl) i = ∅) /\
  (forall g, generator_of fl = inr g ->
     skipLists g = skipsF fl /\
     forall i, SkipLists_Get (skipLists g) i = skip_set_at args i) /\
  (forall pos st',
     main' args pos st = (Exit0, st') ->
     exists g pkg rest plans,
       generator_of fl = inr g /\
       packages_Load (files_at_load args st) (nth 0 pos "") = inr (pkg :: rest) /\
       In (EvWrite (output_writer args) (emit g pkg plans)) (new_events st st') /\
       length plans = length (type_args args) /\
       forall i name, type_args args !! i = Some name ->
         exists id sels plan,
           resolve pkg name = inr id /\
           compile delim wildcard (order (skip_set_at args i)) = inr sels /\
           walk (arena pkg) sels (maxDepth g) id = inr plan /\
           plans !! i = Some (name, plan)).
Proof.
  intros Hp0. destruct (flag_Parse_initial _ _ _ _ Hp0) as (_ & Hs0 & _).
  rewrite Hs0. split; [done|]. split; [by rewrite length_map|]. split.
  { intros i v Hv. rewrite SkipLists_Get_map, Hv. split; [done|].
    intros s. unfold skip_set_of. rewrite elem_of_list_to_set. apply list_elem_of_In. }
  split.
  { intros i Hi. rewrite SkipLists_Get_map.
    by rewrite (lookup_ge_None_2 (skip_args args) i Hi). }
  split.
  { intros g Hg. destruct (generator_of_fields _ _ Hg) as (Hsl & _).
    rewrite Hsl, Hs0. split; [done|]. intros i. apply skip_set_at_spec. }
  intros pos st' Hm. remember Exit0 as o eqn:Ho.
  main_inversion Hm; try discriminate. subst r.
  rewrite Hp0 in Hp. injection Hp as <- <-.
  exists g, pkg, rest, plans. split; [done|]. split; [by rewrite <- Hfl|].
  destruct (success_events args pos st st1 pre g pkg plans st3 Ht Hst3) as [Hev _].
  split.
  { rewrite Hev. apply in_or_app. right. simpl. right. apply in_or_app. right.
    simpl. tauto. }
  destruct (generateFrom_lookup _ _ _ _ _ Hgen) as [Hlen Hplan].
  split; [done|]. intros i name Hn.
  destruct (Hplan i name Hn) as (p & Hty & Hlook). simpl in Hty.
  destruct (generateType_inr _ _ _ _ _ Hty) as (id & sels & plan & Hr & Hc & Hw & ->).
  exists id, sels, plan. split; [done|]. split; [|done].
  destruct (generator_of_fields _ _ Hg) as (Hsl & _).
  by rewrite Hsl, Hs0, skip_set_at_spec in Hc.
Qed.

(** X4.  Among command lines none of whose occurrences [flag.Parse]
    refuses (no undefined flag, no malformed value), only the order among
    the occurrences of one flag matters: two such command lines that give
    every flag the same sequence of values, however the occurrences of
    different flags are interleaved, leave the same flag variables and the
    same state after parsing, and the whole run is the same.  In particular
    a [-skip] belongs to a [-type] by its rank among the [-skip]
    occurrences, not by standing next to it. *)
Theorem X4_interleaving_is_irrelevant args1 args2 pos st :
  refused_args args1 = [] -> refused_args args2 = [] ->
  same_flag_values args1 args2 ->
  flag_Parse args1 initial_flags st = flag_Parse args2 initial_flags st /\
  main' args1 pos st = main' args2 pos st.
Proof.
  intros Hr1 Hr2 Hs.
  pose proof (flag_Parse_same_values args1 args2 initial_flags st Hr1 Hr2 Hs) as Hp.
  split; [exact Hp|]. unfold main. by rewrite Hp.
Qed.

(** X5.  Every [-o] occurrence that names a file opens that file while the
    flags are parsed, also when a later [-o] replaces it: in a run that gets
    past flag parsing, the [os.OpenFile] calls are exactly those of the
    files named by the [-o] occurrences, in command-line order, and each of
    these files exists when the run ends. *)
Theorem X5_every_output_occurrence_opens_its_file args pos st o st' :
  main' args pos st = (o, st') ->
  (forall err, o <> ExitUsage err) ->
  opened_paths (new_events st st') = omap names_file (o_args args) /\
  (forall p, In p (omap names_file (o_args args)) -> is_Some (files st' !! p)).
Proof.
  intros Hm Hne. main_inversion Hm; subst r; try (by destruct (Hne err)).
  all: destruct (new_events_parse_opened _ _ _ _ Hp) as (evs & Ht' & Hok & _).
  all: rewrite Ht in Ht'; apply app_inv_head in Ht'; subst evs.
  all: destruct (Hok fl eq_refl) as [Hopened _].
  all: assert (Hex : forall p, In p (omap names_file (o_args args)) ->
                       is_Some (files st1 !! p))
         by (intros q Hq; destruct (flag_Parse_ok_files _ _ _ _ _ Hp q Hq)
               as (_ & n & Hn & _); by exists n).
  - rewrite (new_events_app _ _ _ Ht). done.
  - rewrite (new_events_app _ _ _ Ht). done.
  - split; [|exact Hex].
    erewrite new_events_app; [|simpl; rewrite Ht, <- ?app_assoc; reflexivity].
    rewrite opened_paths_app, Hopened. simpl. by rewrite app_nil_r.
  - split; [|exact Hex].
    erewrite new_events_app; [|simpl; rewrite Ht, <- ?app_assoc; reflexivity].
    rewrite opened_paths_app, Hopened. simpl. by rewrite app_nil_r.
  - destruct (output_path args) as [q|]; [destruct Hst3 as [_ ->]|subst st3]; simpl.
    + split.
      * erewrite new_events_app; [|simpl; rewrite Ht, <- ?app_assoc; reflexivity].
        rewrite opened_paths_app, Hopened. simpl. by rewrite app_nil_r.
      * intros p0 Hp0. destruct (decide (q = p0)) as [->|Hq];
          [by rewrite lookup_insert_eq|rewrite lookup_insert_ne by done; by apply Hex].
    + split; [|exact Hex].
      erewrite new_events_app; [|simpl; rewrite Ht, <- ?app_assoc; reflexivity].
      rewrite opened_paths_app, Hopened. simpl. by rewrite app_nil_r.
  - destruct (output_path args) as [q|]; [destruct Hst3 as [_ ->]|subst st3]; simpl.
    + split.
      * erewrite new_events_app; [|simpl; rewrite Ht, <- ?app_assoc; reflexivity].
        rewrite opened_paths_app, Hopened. simpl. by rewrite app_nil_r.
      * intros p0 Hp0. destruct (decide (q = p0)) as [->|Hq];
          [by rewrite lookup_insert_eq|rewrite lookup_insert_ne by done; by apply Hex].
    + split; [|exact Hex].
      erewrite new_events_app; [|simpl; rewrite Ht, <- ?app_assoc; reflexivity].
      rewrite opened_paths_app, Hopened. simpl. by rewrite app_nil_r.
  - destruct (output_path args) as [q|]; [destruct Hst3 as [_ ->]|subst st3]; simpl.
    + split.
      * erewrite new_events_app; [|simpl; rewrite Ht, <- ?app_assoc; reflexivity].
        rewrite opened_paths_app, Hopened. simpl. by rewrite app_nil_r.
      * intros p0 Hp0. destruct (decide (q = p0)) as [->|Hq];
          [by rewrite lookup_insert_eq|rewrite lookup_insert_ne by done; by apply Hex].
    + split; [|exact Hex].
      erewrite new_events_app; [|simpl; rewrite Ht, <- ?app_assoc; reflexivity].
      rewrite opened_paths_app, Hopened. simpl. by rewrite app_nil_r.
  - unfold output_writer.
    destruct (output_path args) as [q|]; [destruct Hst3 as [_ ->]|subst st3]; simpl.
    + rewrite lookup_insert_eq. simpl. split.
      * erewrite new_events_app; [|simpl; rewrite Ht, <- ?app_assoc; reflexivity].
        rewrite opened_paths_app, Hopened. simpl. by rewrite app_nil_r.
      * intros p0 Hp0. destruct (decide (q = p0)) as [->|Hq];
          [by rewrite lookup_insert_eq|rewrite !lookup_insert_ne by done; by apply Hex].
    + split; [|exact Hex].
      erewrite new_events_app; [|simpl; rewrite Ht, <- ?app_assoc; reflexivity].
      rewrite opened_paths_app, Hopened. simpl. by rewrite app_nil_r.
Qed.

(** X7.  Whenever [run] fails (the package cannot be loaded, no package is
    found, or the generator returns an error), the output has already been
    opened: the package was asked for after the truncation, the file named
    by the last [-o] is an empty regular file, nothing has been written and
    the standard output stream is as before. *)
Theorem X7_failed_run_leaves_output_file_empty args pos st err st' :
  main' args pos st = (Fatalln "Error generating deep copy method:" err, st') ->
  (forall p, output_path args = Some p -> files st' !! p = Some (Regular "")) /\
  stdout st' = stdout st /\
  Forall (fun e => is_write e = false) (new_events st st') /\
  In (EvLoad (nth 0 pos "")) (new_events st st').
Proof.
  remember (Fatalln "Error generating deep copy method:" err) as o eqn:Ho.
  intros Hm. main_inversion Hm; try discriminate.
  all: assert (Hprew : Forall (fun e => is_write e = false) pre)
         by (eapply Forall_impl; [exact Hpre|]; by intros []).
  all: destruct (output_path args) as [q|]; [destruct Hst3 as [_ ->]|subst st3]; simpl.
  all: (split; [first [by intros p0 [= <-]; rewrite lookup_insert_eq | by intros p0 [=]]|]).
  all: (split; [done|]).
  all: (erewrite new_events_app; [|simpl; rewrite Ht, <- ?app_assoc; reflexivity]).
  all: split; [apply Forall_app; split; [done|]; by repeat constructor|].
  all: apply in_or_app; right; simpl; tauto.
Qed.

(** X8.  When the number of positional arguments is not one, the driver
    stops after flag parsing: the generator is not constructed, the output
    is not truncated and no package is loaded, so an existing output file
    keeps its contents. *)
Theorem X8_package_path_check_precedes_output args pos st o st' :
  length pos <> 1 ->
  main' args pos st = (o, st') ->
  ((exists err, o = ExitUsage err) \/ o = Fatalln "no type given" None \/
   o = Fatalln "No package path given" None) /\
  Forall (fun e => parse_event e = true) (new_events st st') /\
  stdout st' = stdout st /\
  (forall p, kept_or_created (files st) (files st') p).
Proof.
  intros Hlen Hm. main_inversion Hm; try done.
  - split; [left; by exists err|]. by rewrite (new_events_app _ _ _ Ht).
  - split; [right; by left|]. by rewrite (new_events_app _ _ _ Ht).
  - split; [right; by right|]. by rewrite (new_events_app _ _ _ Ht).
Qed.

(** X9.  When some [-o] occurrence names a path that cannot be opened, the
    run ends inside flag parsing with a usage error: the error of
    [outputVal.Set], whose text names a path but not the cause, or the error
    of an occurrence that [flag.Parse] refuses, when there is one (it is the
    first failing occurrence that ends the run).  Nothing but flag parsing
    has happened. *)
Theorem X9_unopenable_output_is_a_usage_error args pos st o st' v :
  In v (o_args args) -> names_file v = Some v ->
  files st !! v = Some Unopenable ->
  main' args pos st = (o, st') ->
  (exists err, o = ExitUsage err /\
     ((exists p, In p (omap names_file (o_args args)) /\
                 err = Errorf ("opening file: " +:+ p)) \/
      (exists text, In text (refused_args args) /\ err = LibError text))) /\
  (refused_args args = [] ->
   exists p, In p (omap names_file (o_args args)) /\
             o = ExitUsage (Errorf ("opening file: " +:+ p))) /\
  Forall (fun e => parse_event e = true) (new_events st st') /\
  stdout st' = stdout st /\
  (forall p, kept_or_created (files st) (files st') p).
Proof.
  intros Hv Hn Hu Hm.
  assert (Hin : In v (omap names_file (o_args args))).
  { apply list_elem_of_In, list_elem_of_omap. exists v. split; [|done].
    by apply list_elem_of_In. }
  main_inversion Hm; subst r;
    try (by destruct (flag_Parse_ok_files _ _ _ _ _ Hp v Hin) as [Hno _]).
  destruct (new_events_parse_opened _ _ _ _ Hp) as (evs & _ & _ & Herr).
  split; [exists err; split; [done|]; by apply Herr|].
  split.
  { intros Href. destruct (Herr err eq_refl) as [(p & Hp' & ->)|(text & Ht' & _)].
    - by exists p.
    - rewrite Href in Ht'. done. }
  by rewrite (new_events_app _ _ _ Ht).
Qed.

(** X10.  When the last [-o] names a file that opens but cannot be truncated
    (a device, a pipe), no run succeeds and no package is ever loaded: a run
    that reaches [outputF.Open] ends with the error of the truncation; the
    generator is not invoked and nothing is written. *)
Theorem X10_untruncatable_output_stops_before_load args pos st o st' p :
  output_path args = Some p ->
  files st !! p = Some Special ->
  main' args pos st = (o, st') ->
  o <> Exit0 /\
  Forall (fun e => is_load e = false /\ is_generate e = false /\ is_write e = false)
    (new_events st st') /\
  files st' !! p = Some Special /\
  (In EvNewGenerator (new_events st st') -> o <> Rejected ConfigurationError ->
   o = Fatalln "Error initializing output file:"
         (Some (LibError ("truncate " +:+ p)))).
Proof.
  intros Hout Hsp Hm.
  main_inversion Hm.
  all: assert (Hpre3 : Forall (fun e => is_load e = false /\ is_generate e = false
                                      /\ is_write e = false) pre)
         by (eapply Forall_impl; [exact Hpre|]; by intros []).
  all: assert (Hsp1 : files st1 !! p = Some Special)
         by (destruct (Hk p) as [->|[Hnone _]]; congruence).
  all: assert (Hnogen : ~ In EvNewGenerator pre)
         by (intros Hin; rewrite Forall_forall in Hpre;
             by apply list_elem_of_In, Hpre in Hin).
  - rewrite (new_events_app _ _ _ Ht). repeat split; done.
  - rewrite (new_events_app _ _ _ Ht). repeat split; done.
  - rewrite (new_events_app _ _ _ Ht). repeat split; done.
  - erewrite new_events_app; [|simpl; rewrite Ht, <- ?app_assoc; reflexivity].
    repeat split; try done. apply Forall_app; split; [done|]. by repeat constructor.
  - erewrite new_events_app; [|simpl; rewrite Ht, <- ?app_assoc; reflexivity].
    rewrite Hout in Hout0. injection Hout0 as <-. simpl.
    repeat split; try done. apply Forall_app; split; [done|]. by repeat constructor.
  - rewrite Hout in Hst3. destruct Hst3 as [[d Hd] _]. congruence.
  - rewrite Hout in Hst3. destruct Hst3 as [[d Hd] _]. congruence.
  - rewrite Hout in Hst3. destruct Hst3 as [[d Hd] _]. congruence.
  - rewrite Hout in Hst3. destruct Hst3 as [[d Hd] _]. congruence.
Qed.

End MoreProperties.

(** X6.  [outputVal.String] shows the value of the last [-o] occurrence, the
    empty string when there is none, and the word [stdout] when that value
    is [-] or empty.  [Set] does not read the word back: setting an output
    value from its own text, when it stands for the standard output stream,
    calls [os.OpenFile] on a file named [stdout] and, when that succeeds,
    makes this file the destination. *)
Theorem X6_output_String_is_not_read_back_by_Set args st fl st1 :
  flag_Parse args initial_flags st = (inl fl, st1) ->
  outputVal_String (outputF fl) = last_or "" (map shown_name (o_args args)) /\
  (output_path args = None -> o_args args <> [] ->
   outputVal_String (outputF fl) = "stdout" /\
   forall o2 e2 st2,
     outputVal_Set (outputF fl) (outputVal_String (outputF fl)) st1 = (o2, e2, st2) ->
     new_events st1 st2 = [EvOpenFile "stdout"] /\
     (e2 = None -> file o2 = Some (os_Handle "stdout") /\
                   is_Some (files st2 !! "stdout"))).
Proof.
  intros Hp. destruct (new_events_parse_opened _ _ _ _ Hp) as (evs & _ & Hok & _).
  destruct (Hok fl eq_refl) as [_ Hname]. unfold outputVal_String.
  split; [exact Hname|]. intros Hout Hne. rewrite Hname.
  assert (Hshown : last_or "" (map shown_name (o_args args)) = "stdout").
  { unfold output_path in Hout. unfold last_or. change (map shown_name (o_args args)) with (shown_name <$> o_args args).
    rewrite fmap_last.
    destruct (last (o_args args)) as [v|] eqn:El.
    - unfold shown_name. simpl. by rewrite Hout.
    - by apply last_None in El. }
  rewrite Hshown. split; [done|]. intros o2 e2 st2 Hs.
  destruct (outputVal_Set_spec _ _ _ _ _ _ Hs) as (_ & _ & _ & Hfile).
  unfold outputVal_Set, os_OpenFile in Hs. simpl in Hs.
  destruct (files st1 !! "stdout") as [[d| |]|] eqn:Ef; simplify_eq; simpl.
  - split; [by apply new_events_app|]. intros _. split; [done|]. by rewrite Ef.
  - split; [by apply new_events_app|]. intros _. split; [done|]. by rewrite Ef.
  - split; [by apply new_events_app|]. done.
  - split; [by apply new_events_app|]. intros _. split; [done|].
    by rewrite lookup_insert_eq.
Qed.

(** X12.  Every [-tags] occurrence appends its argument as it is, as one
    entry of the build-tag list: after parsing, the list holds the [-tags]
    arguments in command-line order, one entry per occurrence, and this is
    the list the generator is constructed with.  [buildTagsVal.Set] does not
    split an argument at commas, as [skipsVal.Set] does: an argument with a
    comma is one entry that contains the comma. *)
Theorem X12_tags_are_appended_unsplit args st fl st1 :
  flag_Parse args initial_flags st = (inl fl, st1) ->
  buildTagsF fl = tags_args args /\
  length (buildTagsF fl) = length (tags_args args) /\
  (forall g, generator_of fl = inr g -> buildTags g = tags_args args) /\
  (forall i v, tags_args args !! i = Some v -> string_mem comma v = true ->
     exists entry, buildTagsF fl !! i = Some entry /\ string_mem comma entry = true).
Proof.
  intros Hp. destruct (flag_Parse_initial _ _ _ _ Hp) as (_ & _ & Hb & _).
  split; [done|]. split; [by rewrite Hb|]. split.
  - intros g. unfold generator_of, NewGenerator. case_match; [done|]. intros [= <-]. done.
  - intros i v Hv Hc. exists v. by rewrite Hb.
Qed.

(* ===================================================================== *)
(** ** The theorems at the sample inputs *)
(* ===================================================================== *)

Lemma valid_order_reversed : valid_order reversed_order.
Proof. intros m. apply reverse_Permutation. Qed.

(** C1, at a run that asks for a type the package does not declare and
    names an existing output file; the loader reads the package from the
    disk. *)
Lemma C1_witness :
  run_missing_type_on_disk.1 <> Exit0 /\
  stdout run_missing_type_on_disk.2 = stdout disk_with_package /\
  Forall (fun ev => is_write ev = false)
    (new_events disk_with_package run_missing_type_on_disk.2) /\
  resolve node_package "Missing" = inl (ResolutionError "Missing") /\
  In (EvTruncate "out.go") (new_events disk_with_package run_missing_type_on_disk.2) /\
  files run_missing_type_on_disk.2 !! "out.go" = Some (Regular "").
Proof.
  destruct (C1_absent_type_no_write load_from_disk sample_delim sample_wildcard elements
              sample_emit [A_type "Missing"; A_o "out.go"] ["./example"]
              disk_with_package
              run_missing_type_on_disk.1 run_missing_type_on_disk.2
              (surjective_pairing _))
    as [Habsent Herror].
  destruct (Habsent node_package [] "Missing") as (H1 & H2 & H3 & _).
  - vm_compute. reflexivity.
  - left. reflexivity.
  - reflexivity.
  - destruct (Herror "Missing") as (_ & _ & _ & _ & H5).
    + vm_compute. reflexivity.
    + split; [exact H1|]. split; [exact H2|]. split; [exact H3|].
      split; [reflexivity|]. exact (H5 "out.go" eq_refl).
Defined.

(** C1 as stated fails: the file named by [-o] existed with contents, the
    run ended in a resolution error, and the file is empty afterwards. *)
Lemma C1_counterexample :
  files disk_with_output !! "out.go" = Some (Regular "old text") /\
  run_missing_type.1
  = Fatalln "Error generating deep copy method:"
      (Some (GenErr (ResolutionError "Missing"))) /\
  files run_missing_type.2 !! "out.go" = Some (Regular "") /\
  In (EvTruncate "out.go") (new_events disk_with_output run_missing_type.2).
Proof. vm_compute. intuition. Qed.

(** C2, at a run that asks for the destination parameter with the default
    value receiver. *)
Lemma C2_witness :
  run_value_receiver_destination.1 = Rejected ConfigurationError /\
  Forall (fun e => is_load e = false)
    (new_events disk_with_output run_value_receiver_destination.2).
Proof.
  destruct (C2_destination_needs_pointer_receiver load_node sample_delim
              sample_wildcard elements sample_emit
              [A_type "Node"; A_another_struct true] ["./example"] disk_with_output
              run_value_receiver_destination.1 run_value_receiver_destination.2)
    as (_ & _ & H3 & H4).
  - reflexivity.
  - reflexivity.
  - apply surjective_pairing.
  - split; [|exact H3].
    apply (H4 "Node" [] "./example"); [reflexivity|discriminate|reflexivity|].
    intros err. discriminate.
Defined.

Lemma node_arena_closed : arena_closed node_arena.
Proof.
  intros id shape r Hid Hr.
  destruct id as [|[|[|[|id]]]]; simpl in Hid; simplify_eq; simpl in Hr; simpl;
    intuition lia.
Qed.

(** C4, at the self-referential [Node]: the walk delivers a plan, and the
    revisited shape is guarded also beyond the depth bound. *)
Lemma C4_witness :
  walk node_arena [] 1 0 <> inl InternalError /\
  (exists plan, walk node_arena [] 1 0 = inr plan) /\
  depth_reached 1 5 = true /\
  walk_fuel node_arena [] 1 1 [SegField "Next"] [3; 1; 0] 5 0 = Ok (CycleGuard 0).
Proof.
  destruct (C4_walk_terminates node_arena [] 1) as (_ & _ & H3 & H4 & H5 & _).
  split; [apply H3|]. split; [apply (H4 node_arena_closed 0); simpl; lia|].
  split; [reflexivity|].
  apply (H5 0 [SegField "Next"] [3; 1; 0] 5 0).
  - apply list_elem_of_In. right. right. left. reflexivity.
  - reflexivity.
Defined.

(** C6, at a run with one [-skip] occurrence, which holds a repeated
    selector, and two [-type] occurrences: the first type is walked under
    the selectors of that occurrence, the second under none. *)
Lemma C6_witness :
  exists fl st1,
    flag_Parse [A_type "B"; A_skip "q,q"; A_type "A"] initial_flags empty_disk
    = (inl fl, st1) /\
    length (skipsF fl) = 1 /\
    SkipLists_Get (skipsF fl) 0 = skip_set_of "q,q" /\
    SkipLists_Get (skipsF fl) 1 = ∅ /\
    exists g plans,
      length plans = 2 /\
      (exists id sels plan,
         resolve ab_package "B" = inr id /\
         compile sample_delim sample_wildcard
           (elements (skip_set_at [A_type "B"; A_skip "q,q"; A_type "A"] 0)) = inr sels /\
         walk ab_arena sels (maxDepth g) id = inr plan /\
         plans !! 0 = Some ("B", plan)) /\
      (exists id sels plan,
         resolve ab_package "A" = inr id /\
         compile sample_delim sample_wildcard
           (elements (skip_set_at [A_type "B"; A_skip "q,q"; A_type "A"] 1)) = inr sels /\
         walk ab_arena sels (maxDepth g) id = inr plan /\
         plans !! 1 = Some ("A", plan)).
Proof.
  eexists _, _. split; [reflexivity|].
  destruct (C6_skip_sets load_ab sample_delim sample_wildcard elements sample_emit
              [A_type "B"; A_skip "q,q"; A_type "A"] empty_disk _ _ eq_refl)
    as (_ & H2 & H3 & H4 & _ & H6).
  split; [exact H2|]. split; [exact (proj1 (H3 0 "q,q" eq_refl))|].
  split; [apply H4; simpl; lia|].
  assert (Hrun : sample_main load_ab elements [A_type "B"; A_skip "q,q"; A_type "A"]
                   ["./example"] empty_disk
                 = (Exit0, (sample_main load_ab elements
                              [A_type "B"; A_skip "q,q"; A_type "A"]
                              ["./example"] empty_disk).2))
    by (vm_compute; reflexivity).
  destruct (H6 ["./example"] _ Hrun) as (g & pkg & rest & plans & _ & Hload & _ & Hlen & Hplans).
  injection Hload as <- _.
  exists g, plans. split; [exact Hlen|].
  split; [exact (Hplans 0 "B" eq_refl)|exact (Hplans 1 "A" eq_refl)].
Defined.

(** C7, at a run whose last [-o] names a file and at one whose last [-o]
    is [-]. *)
Lemma C7_witness :
  (exists g pkg plans,
     files run_to_file.2 !! "out.go" = Some (Regular (sample_emit g pkg plans)) /\
     In (EvWrite (os_Handle "out.go") (sample_emit g pkg plans))
       (new_events disk_with_output run_to_file.2) /\
     stdout run_to_file.2 = stdout disk_with_output) /\
  (exists g pkg plans,
     stdout run_to_stdout.2 = stdout disk_with_output +:+ sample_emit g pkg plans).
Proof.
  split.
  - assert (Hrun : sample_main load_node elements [A_o "-"; A_type "Node"; A_o "out.go"]
                     ["./example"] disk_with_output = (Exit0, run_to_file.2))
      by (vm_compute; reflexivity).
    destruct (C7_output_destination load_node sample_delim sample_wildcard elements
                sample_emit [A_o "-"; A_type "Node"; A_o "out.go"] ["./example"]
                disk_with_output run_to_file.2 Hrun)
      as (_ & fl & st1 & g & pkg & rest & plans & pre & _ & _ & _ & _ & _ & Hev & Hres).
    change (output_path [A_o "-"; A_type "Node"; A_o "out.go"]) with (Some "out.go")
      in Hres.
    exists g, pkg, plans. destruct Hres as (_ & Hf & Hs).
    split; [exact Hf|]. split; [|exact Hs].
    rewrite Hev. apply in_or_app. right. simpl. tauto.
  - assert (Hrun : sample_main load_node elements [A_o "out.go"; A_type "Node"; A_o "-"]
                     ["./example"] disk_with_output = (Exit0, run_to_stdout.2))
      by (vm_compute; reflexivity).
    destruct (C7_output_destination load_node sample_delim sample_wildcard elements
                sample_emit [A_o "out.go"; A_type "Node"; A_o "-"] ["./example"]
                disk_with_output run_to_stdout.2 Hrun)
      as (_ & fl & st1 & g & pkg & rest & plans & pre & _ & _ & _ & _ & _ & _ & Hres).
    change (output_path [A_o "out.go"; A_type "Node"; A_o "-"]) with (@None string)
      in Hres.
    exists g, pkg, plans. exact Hres.
Defined.

(** C8, at a loader that reads the disk and finds no package on it. *)
Lemma C8_witness :
  run_package_not_on_disk.1
  = Fatalln "Error generating deep copy method:" (Some (Errorf "no package found")) /\
  Forall (fun e => is_generate e = false /\ is_write e = false)
    (new_events disk_with_output run_package_not_on_disk.2).
Proof.
  destruct (C8_no_package_found load_from_disk sample_delim sample_wildcard elements
              sample_emit [A_type "Node"; A_o "out.go"] ["./example"] disk_with_output
              run_package_not_on_disk.1 run_package_not_on_disk.2)
    as (_ & _ & H3 & _ & _ & H6).
  - vm_compute. reflexivity.
  - apply surjective_pairing.
  - split; [|exact H3]. apply H6. vm_compute. tauto.
Defined.

(** C9, at a run that requests [B] before [A]. *)
Lemma C9_witness :
  In (EvGenerate ["B"; "A"]) (new_events empty_disk run_two_types.2) /\
  (forall ts, In (EvGenerate ts) (new_events empty_disk run_two_types.2) ->
     ts = ["B"; "A"]).
Proof.
  destruct (C9_types_in_order load_ab sample_delim sample_wildcard elements
              sample_emit [A_type "B"; A_skip "q"; A_type "A"] ["./example"]
              empty_disk run_two_types.1 run_two_types.2)
    as (_ & H2 & H3 & _).
  - apply surjective_pairing.
  - split; [apply H3; reflexivity|exact H2].
Defined.

(** C10, at a run whose first type name is empty. *)
Lemma C10_witness :
  (run_empty_first_type.1 = Fatalln "no type given" None \/
   exists err, run_empty_first_type.1 = ExitUsage err) /\
  Forall (fun e => parse_event e = true)
    (new_events disk_with_output run_empty_first_type.2) /\
  stdout run_empty_first_type.2 = stdout disk_with_output /\
  (forall p, kept_or_created (files disk_with_output)
               (files run_empty_first_type.2) p).
Proof.
  apply (C10_no_type_aborts_before_load load_node sample_delim sample_wildcard
           elements sample_emit [A_type ""; A_o "out.go"; A_type "Node"]
           ["./example"] disk_with_output
           run_empty_first_type.1 run_empty_first_type.2).
  - apply surjective_pairing.
  - right. reflexivity.
Defined.

(** C10 as stated fails: no type is given, the run aborts, and yet the
    file named by [-o] has been opened and, being absent, created. *)
Lemma C10_counterexample :
  files empty_disk !! "new.go" = None /\
  run_no_type.1 = Fatalln "no type given" None /\
  new_events empty_disk run_no_type.2 = [EvOpenFile "new.go"] /\
  files run_no_type.2 !! "new.go" = Some (Regular "").
Proof. vm_compute. intuition. Qed.

(* ===================================================================== *)
(** ** The further properties at the sample inputs *)
(* ===================================================================== *)

(** X1, at a tag list with an entry that contains a comma. *)
Lemma X1_witness :
  strings_Split (buildTagsVal_String ["T1,T2"; "linux"]) comma = ["T1"; "T2"; "linux"] /\
  buildTagsVal_String ["T1"; "T2"; "linux"] = buildTagsVal_String ["T1,T2"; "linux"].
Proof.
  destruct (X1_String_lists_entries_by_comma ["T1,T2"; "linux"]) as (H1 & H2 & H3 & _).
  - discriminate.
  - split; [rewrite <- H1; exact H2|exact H3].
Defined.

(** X3, at two [-skip] occurrences and the reversed enumeration order. *)
Lemma X3_witness :
  skipsVal_Set [] (skipsVal_String reversed_order (map skip_set_of ["a,b"; "c"]))
  = ([⋃ (map skip_set_of ["a,b"; "c"])], None).
Proof.
  apply (X3_skipsVal_String_then_Set_merges reversed_order ["a,b"; "c"]).
  - exact valid_order_reversed.
  - discriminate.
Defined.

(** X4, at two interleavings of the same flags. *)
Lemma X4_witness :
  sample_main load_ab elements
    [A_type "B"; A_skip "q"; A_o "out.go"; A_type "A"; A_tags "linux"]
    ["./example"] disk_with_output
  = sample_main load_ab elements
      [A_o "out.go"; A_tags "linux"; A_type "B"; A_type "A"; A_skip "q"]
      ["./example"] disk_with_output.
Proof.
  apply (X4_interleaving_is_irrelevant load_ab sample_delim sample_wildcard elements
           sample_emit
           [A_type "B"; A_skip "q"; A_o "out.go"; A_type "A"; A_tags "linux"]
           [A_o "out.go"; A_tags "linux"; A_type "B"; A_type "A"; A_skip "q"]
           ["./example"] disk_with_output).
  - reflexivity.
  - reflexivity.
  - repeat split; reflexivity.
Defined.

(** X5, at a run whose first [-o] is replaced by a second one. *)
Lemma X5_witness :
  opened_paths (new_events disk_with_output run_replaced_output.2)
  = ["first.go"; "out.go"] /\
  is_Some (files run_replaced_output.2 !! "first.go").
Proof.
  destruct (X5_every_output_occurrence_opens_its_file load_node sample_delim
              sample_wildcard elements sample_emit
              [A_o "first.go"; A_type "Node"; A_o "out.go"] ["./example"]
              disk_with_output run_replaced_output.1 run_replaced_output.2)
    as (H1 & H2).
  - apply surjective_pairing.
  - intros err. vm_compute. discriminate.
  - split; [exact H1|]. apply H2. left. reflexivity.
Defined.

(** X6, at a command line whose last [-o] is [-]. *)
Lemma X6_witness :
  exists fl st1,
    flag_Parse [A_o "out.go"; A_o "-"] initial_flags disk_with_output = (inl fl, st1) /\
    outputVal_String (outputF fl) = "stdout" /\
    forall o2 e2 st2,
      outputVal_Set (outputF fl) (outputVal_String (outputF fl)) st1 = (o2, e2, st2) ->
      new_events st1 st2 = [EvOpenFile "stdout"].
Proof.
  eexists _, _. split; [reflexivity|].
  destruct (X6_output_String_is_not_read_back_by_Set [A_o "out.go"; A_o "-"]
              disk_with_output _ _ eq_refl) as (_ & H2).
  destruct (H2 eq_refl ltac:(discriminate)) as (Hs & Hset).
  split; [exact Hs|]. intros o2 e2 st2 Hr. exact (proj1 (Hset o2 e2 st2 Hr)).
Defined.

(** X7, at a run whose loader finds no package. *)
Lemma X7_witness :
  files (sample_main load_nothing elements [A_type "Node"; A_o "out.go"]
           ["./example"] disk_with_output).2 !! "out.go"
  = Some (Regular "").
Proof.
  assert (Hrun : sample_main load_nothing elements [A_type "Node"; A_o "out.go"]
                   ["./example"] disk_with_output
                 = (Fatalln "Error generating deep copy method:"
                      (Some (Errorf "no package found")),
                    (sample_main load_nothing elements [A_type "Node"; A_o "out.go"]
                       ["./example"] disk_with_output).2))
    by (vm_compute; reflexivity).
  destruct (X7_failed_run_leaves_output_file_empty load_nothing sample_delim
              sample_wildcard elements sample_emit [A_type "Node"; A_o "out.go"]
              ["./example"] disk_with_output _ _ Hrun) as (H1 & _).
  apply H1. reflexivity.
Defined.

(** X8, at a run without a package path. *)
Lemma X8_witness :
  stdout run_without_package_path.2 = stdout disk_with_output /\
  kept_or_created (files disk_with_output) (files run_without_package_path.2) "out.go".
Proof.
  destruct (X8_package_path_check_precedes_output load_node sample_delim
              sample_wildcard elements sample_emit [A_type "Node"; A_o "out.go"] []
              disk_with_output run_without_package_path.1 run_without_package_path.2)
    as (_ & _ & H3 & H4).
  - simpl. lia.
  - apply surjective_pairing.
  - split; [exact H3|apply H4].
Defined.

(** X9, at a run whose first [-o] names a directory, and at one in which
    [flag.Parse] refuses an occurrence before it gets to the directory. *)
Lemma X9_witness :
  (exists p, In p ["/etc"; "out.go"] /\
     run_output_is_directory.1 = ExitUsage (Errorf ("opening file: " +:+ p))) /\
  stdout run_output_is_directory.2 = stdout disk_with_devices /\
  (exists err, run_refused_then_directory.1 = ExitUsage err).
Proof.
  destruct (X9_unopenable_output_is_a_usage_error load_node sample_delim
              sample_wildcard elements sample_emit
              [A_type "Node"; A_o "/etc"; A_o "out.go"] ["./example"]
              disk_with_devices run_output_is_directory.1 run_output_is_directory.2
              "/etc")
    as (_ & H2 & _ & H4 & _).
  - left. reflexivity.
  - reflexivity.
  - reflexivity.
  - apply surjective_pairing.
  - split; [exact (H2 eq_refl)|]. split; [exact H4|].
    destruct (X9_unopenable_output_is_a_usage_error load_node sample_delim
                sample_wildcard elements sample_emit
                [A_type "Node"; A_maxdepth (2 ^ 64); A_o "/etc"]
                ["./example"] disk_with_devices
                run_refused_then_directory.1 run_refused_then_directory.2 "/etc")
      as ((err & Herr & _) & _).
    + left. reflexivity.
    + reflexivity.
    + reflexivity.
    + apply surjective_pairing.
    + exists err. exact Herr.
Defined.

(** X10, at a run whose output is a device. *)
Lemma X10_witness :
  run_output_is_device.1 <> Exit0 /\
  files run_output_is_device.2 !! "/dev/null" = Some Special.
Proof.
  destruct (X10_untruncatable_output_stops_before_load load_node sample_delim
              sample_wildcard elements sample_emit [A_type "Node"; A_o "/dev/null"]
              ["./example"] disk_with_devices
              run_output_is_device.1 run_output_is_device.2 "/dev/null")
    as (H1 & _ & H3 & _).
  - reflexivity.
  - reflexivity.
  - apply surjective_pairing.
  - split; [exact H1|exact H3].
Defined.

(** X12, at two [-tags] occurrences, the first with a comma. *)
Lemma X12_witness :
  exists fl st1,
    flag_Parse [A_tags "T1,T2"; A_type "Node"; A_tags "linux"] initial_flags empty_disk
    = (inl fl, st1) /\
    buildTagsF fl = ["T1,T2"; "linux"] /\
    length (buildTagsF fl) = 2.
Proof.
  eexists _, _. split; [reflexivity|].
  destruct (X12_tags_are_appended_unsplit
              [A_tags "T1,T2"; A_type "Node"; A_tags "linux"] empty_disk _ _ eq_refl)
    as (H1 & H2 & _).
  split; [exact H1|exact H2].
Defined.
